(** * match-sorter: ranking and ordering of candidates against a query

    A shallow embedding of [src/index.js] and the properties of its
    ranking, filtering and ordering pipeline.

    Conventions of the embedding.
    - JavaScript values are the inductive [jsValue]: [undefined], [null],
      booleans, integer-valued numbers, strings and plain records (own
      properties as an association list, first binding wins).
    - [toString] is the template literal on the values that are
      [renderable]: numbers in the range of the exact integers, which
      JavaScript prints in plain decimal, and records with no own property
      [toString] (on a record that has one the code raises a [TypeError]).
    - [getProp] reads own properties; a read of a name that the record
      inherits from [Object.prototype] ([objectPrototypeMembers]) gives that
      member in JavaScript and is outside the model.
    - Strings are [string] (sequences of 8-bit characters); [toLowerCase]
      lowers the letters [A]-[Z] and leaves every other character as it is.
    - A thrown exception is the [Throw] case of [result]; on renderable
      values the only one is the [TypeError] of reading a property of
      [undefined] or [null].
    - [Array.prototype.sort] is modelled by insertion with the caller's
      comparator; [sort_unique] shows that on the records of one call any
      arrangement sorted for the comparator is that same list. *)

From Stdlib Require Import ZArith List Bool Ascii String Lia.
From Stdlib Require Import Permutation Sorting.Sorted DecimalString.
Import ListNotations.

Open Scope string_scope.
Open Scope Z_scope.

(** ** JavaScript values and the string primitives the code calls *)

#[warnings="-register-all"]
Inductive jsValue : Type :=
| VUndefined
| VNull
| VBool (b : bool)
| VNum (n : Z)
| VStr (s : string)
| VObj (fields : list (string * jsValue)).

Inductive error : Type := TypeError.

Inductive result (A : Type) : Type :=
| Ok (a : A)
| Throw (e : error).

Arguments Ok {A} a.
Arguments Throw {A} e.

Definition bind {A B : Type} (m : result A) (k : A -> result B) : result B :=
  match m with
  | Ok a => k a
  | Throw e => Throw e
  end.

Notation "x <- m ;; k" := (bind m (fun x => k))
  (at level 61, m at next level, right associativity).

Notation "' pat <- m ;; k" := (bind m (fun x => match x with pat => k end))
  (at level 61, pat pattern, m at next level, right associativity).

(** The template literal [`${v}`]: the string rendering of a value.  A
    number is an integer and renders in decimal, as JavaScript renders the
    exact integers (below 2^53 in absolute value); a record renders as
    JavaScript renders one that has no own property [toString]. *)
Definition toString (v : jsValue) : string :=
  match v with
  | VUndefined => "undefined"
  | VNull => "null"
  | VBool true => "true"
  | VBool false => "false"
  | VNum n => NilZero.string_of_int (Z.to_int n)
  | VStr s => s
  | VObj _ => "[object Object]"
  end.

Definition lowerChar (c : ascii) : ascii :=
  let n := nat_of_ascii c in
  if (65 <=? n)%nat && (n <=? 90)%nat then ascii_of_nat (n + 32) else c.

Fixpoint toLowerCase (s : string) : string :=
  match s with
  | EmptyString => EmptyString
  | String c s' => String (lowerChar c) (toLowerCase s')
  end.

(** [s.indexOf(search)]: the least position at which [search] starts in
    [s], or [-1]. *)
Fixpoint indexOfFrom (s search : string) (k : Z) : Z :=
  if prefix search s then k
  else match s with
       | EmptyString => -1
       | String _ s' => indexOfFrom s' search (k + 1)
       end.

Definition indexOf (s search : string) : Z := indexOfFrom s search 0.

(** [s.split(sep)] for a one-character separator: never the empty list. *)
Fixpoint split (sep : ascii) (s : string) : list string :=
  match s with
  | EmptyString => [EmptyString]
  | String c s' =>
      if Ascii.eqb c sep then EmptyString :: split sep s'
      else match split sep s' with
           | [] => [String c EmptyString]
           | w :: ws => String c w :: ws
           end
  end.

(** [s.substr(start, len)]. *)
Definition substr (s : string) (start len : nat) : string :=
  substring start len s.

(** [arr.reduce(f, init)], the callback receiving the accumulator, the
    element and its index; an exception in the callback ends the loop. *)
Fixpoint reduceFrom {A B : Type} (f : B -> A -> Z -> result B)
         (l : list A) (i : Z) (acc : B) : result B :=
  match l with
  | [] => Ok acc
  | x :: l' => acc' <- f acc x i ;; reduceFrom f l' (i + 1) acc'
  end.

Definition reduce {A B : Type} (f : B -> A -> Z -> result B)
           (l : list A) (init : B) : result B :=
  reduceFrom f l 0 init.

Fixpoint lookup (fields : list (string * jsValue)) (key : string) : option jsValue :=
  match fields with
  | [] => None
  | (k, v) :: rest => if String.eqb k key then Some v else lookup rest key
  end.

(** The index named by [key] when it is the decimal rendering of a position
    of [s]. *)
Definition stringIndexKey (s key : string) : option nat :=
  find (fun i => String.eqb (NilZero.string_of_uint (Nat.to_uint i)) key)
       (seq 0 (String.length s)).

(** [item[key]], for a key that names an own property or no property at
    all (the members a value inherits are not read here). *)
Definition getProp (item : jsValue) (key : string) : result jsValue :=
  match item with
  | VUndefined | VNull => Throw TypeError
  | VObj fields =>
      match lookup fields key with
      | Some v => Ok v
      | None => Ok VUndefined
      end
  | VStr s =>
      if String.eqb key "length" then Ok (VNum (Z.of_nat (String.length s)))
      else match stringIndexKey s key with
           | Some i => Ok (VStr (substring i 1 s))
           | None => Ok VUndefined
           end
  | VBool _ | VNum _ => Ok VUndefined
  end.

(** ** The program *)

Module matchRankMap.
Definition equals : Z := 5.
Definition startsWith : Z := 4.
Definition wordStartsWith : Z := 3.
Definition contains : Z := 2.
Definition acronym : Z := 1.
Definition matches : Z := 0.
Definition noMatch : Z := -1.
End matchRankMap.

Definition getAcronym (str : string) : string :=
  let wordsInString := split " " str in
  fold_left
    (fun acronym wordInString =>
       let splitByHyphenWords := split "-" wordInString in
       fold_left
         (fun acronym splitByHyphenWord =>
            acronym ++ substr splitByHyphenWord 0 1)
         splitByHyphenWords acronym)
    wordsInString "".

(** The loop of [findMatchingCharacter]: [j] runs from the cursor to the end
    of [str]; the result is the new cursor when [matchChar] is met. *)
Fixpoint findLoop (fuel j : nat) (matchChar : ascii) (str : string) : option nat :=
  match fuel with
  | O => None
  | S fuel' =>
      match get j str with
      | None => None
      | Some stringChar =>
          if Ascii.eqb stringChar matchChar then Some (S j)
          else findLoop fuel' (S j) matchChar str
      end
  end.

(** [findMatchingCharacter] reads and writes the cursor [charNumber] of the
    enclosing call: it is passed in and returned. *)
Definition findMatchingCharacter (matchChar : ascii) (str : string)
           (charNumber : nat) : bool * nat :=
  match findLoop (String.length str - charNumber) charNumber matchChar str with
  | Some charNumber' => (true, charNumber')
  | None => (false, charNumber)
  end.

Fixpoint charOrderLoop (testString stringToRank : string) (charNumber : nat) : Z :=
  match stringToRank with
  | EmptyString => matchRankMap.matches
  | String matchChar rest =>
      let (found, charNumber') :=
        findMatchingCharacter matchChar testString charNumber in
      if found then charOrderLoop testString rest charNumber'
      else matchRankMap.noMatch
  end.

Definition stringsByCharOrder (testString stringToRank : string) : Z :=
  charOrderLoop testString stringToRank 0.

Definition lowered (v : jsValue) : string := toLowerCase (toString v).

Definition getMatchRanking (testString stringToRank : jsValue) : Z :=
  let testString := lowered testString in
  let stringToRank := lowered stringToRank in
  if (String.length testString <? String.length stringToRank)%nat then
    matchRankMap.noMatch
  else if String.eqb testString stringToRank then
    matchRankMap.equals
  else if indexOf testString stringToRank =? 0 then
    matchRankMap.startsWith
  else if negb (indexOf testString (" " ++ stringToRank) =? -1) then
    matchRankMap.wordStartsWith
  else if negb (indexOf testString stringToRank =? -1) then
    matchRankMap.contains
  else if (String.length stringToRank =? 1)%nat then
    matchRankMap.noMatch
  else if negb (indexOf (getAcronym testString) stringToRank =? -1) then
    matchRankMap.acronym
  else
    stringsByCharOrder testString stringToRank.

(** The callback of [keys.reduce] in [getHighestRanking]. *)
Definition highestRankingStep (item value : jsValue)
           (best : Z * Z) (key : string) (i : Z) : result (Z * Z) :=
  let '(rank, keyIndex) := best in
  field <- getProp item key ;;
  let newRank := getMatchRanking field value in
  if newRank >? rank then Ok (newRank, i) else Ok (rank, keyIndex).

(** [keys] is [None] when the option is not supplied ([!keys] holds); an
    array, also the empty one, is [Some]. *)
Definition getHighestRanking (item : jsValue) (keys : option (list string))
           (value : jsValue) : result (Z * Z) :=
  match keys with
  | None => Ok (getMatchRanking item value, -1)
  | Some keys =>
      reduce (highestRankingStep item value) keys (matchRankMap.noMatch, -1)
  end.

Record ranked : Type := mkRanked
  { item : jsValue; rank : Z; index : Z; keyIndex : Z }.

Definition sortRankedItems (a b : ranked) : Z :=
  let aFirst := -1 in
  let bFirst := 1 in
  let same := rank a =? rank b in
  if same then
    if keyIndex a =? keyIndex b then
      if index a <? index b then aFirst else bFirst
    else
      if keyIndex a <? keyIndex b then aFirst else bFirst
  else
    if rank a >? rank b then aFirst else bFirst.

(** [arr.sort(compare)]: an element goes before the first one the comparator
    puts it in front of. *)
Fixpoint insert {A : Type} (compare : A -> A -> Z) (x : A) (l : list A) : list A :=
  match l with
  | [] => [x]
  | y :: l' => if compare x y <? 0 then x :: l else y :: insert compare x l'
  end.

Definition sort {A : Type} (compare : A -> A -> Z) (l : list A) : list A :=
  fold_right (insert compare) [] l.

Record Options : Type := mkOptions { keys : option (list string) }.

Definition defaultOptions : Options := mkOptions None.

Definition reduceItemsToRanked (keys : option (list string)) (value : jsValue)
           (matches : list ranked) (item : jsValue) (index : Z)
  : result (list ranked) :=
  '(rank, keyIndex) <- getHighestRanking item keys value ;;
  if rank >? matchRankMap.noMatch
  then Ok (matches ++ [mkRanked item rank index keyIndex])%list
  else Ok matches.

Definition matchedItems (items : list jsValue) (value : jsValue) (options : Options)
  : result (list ranked) :=
  reduce (reduceItemsToRanked (keys options) value) items [].

Definition matchSorter (items : list jsValue) (value : jsValue) (options : Options)
  : result (list jsValue) :=
  matched <- matchedItems items value options ;;
  Ok (map item (sort sortRankedItems matched)).

(** ** Notions the properties are stated with *)

(** [q] occurs in [s] as a contiguous substring. *)
Definition isSubstring (q s : string) : Prop :=
  exists a b, s = a ++ q ++ b.

(** Every character of [q] occurs in [s], in the order of [q], each at a
    later position than the one before. *)
Inductive subseq : string -> string -> Prop :=
| subseq_nil : forall s, subseq EmptyString s
| subseq_skip : forall q c s, subseq q s -> subseq q (String c s)
| subseq_take : forall q c s, subseq q s -> subseq (String c q) (String c s).

(** The characters of [q] are met in [t] at the positions [ps], one after
    the other in increasing positions. *)
Definition occursAt (q t : string) (ps : list nat) : Prop :=
  StronglySorted lt ps /\
  map (fun p => get p t) ps = map Some (list_ascii_of_string q).

Definition concatAll (l : list string) : string :=
  fold_right append EmptyString l.

Definition firstChar (w : string) : string :=
  match w with
  | EmptyString => EmptyString
  | String c _ => String c EmptyString
  end.

Definition nonEmpty (w : string) : bool := negb (String.eqb w EmptyString).

(** The sub-words of a candidate: split on spaces, each word split on
    hyphens. *)
Definition subWords (s : string) : list string :=
  flat_map (split "-") (split " " s).

(** The acronym as the specification words it: the first characters of the
    non-empty sub-words, concatenated in order. *)
Definition acronymSpec (s : string) : string :=
  concatAll (map firstChar (filter nonEmpty (subWords s))).

(** [s] with its first [n] characters removed. *)
Fixpoint drop (n : nat) (s : string) : string :=
  match n with
  | O => s
  | S n' => match s with
            | EmptyString => EmptyString
            | String _ s' => drop n' s'
            end
  end.

(** The pieces [l] put together again with [sep] between them. *)
Fixpoint join (sep : ascii) (l : list string) : string :=
  match l with
  | [] => EmptyString
  | [w] => w
  | w :: l' => w ++ String sep (join sep l')
  end.

(** The scan of [findMatchingCharacter] on what is left of the candidate:
    how many characters it consumes to meet [c]. *)
Fixpoint findIn (c : ascii) (s : string) : option nat :=
  match s with
  | EmptyString => None
  | String d s' =>
      if Ascii.eqb d c then Some 1%nat else option_map S (findIn c s')
  end.

(** The scan of [stringsByCharOrder] by recursion on the query. *)
Fixpoint greedy (q s : string) : bool :=
  match q with
  | EmptyString => true
  | String c q' =>
      match findIn c s with
      | Some k => greedy q' (drop k s)
      | None => false
      end
  end.

(** Steps 1 to 6 of the classification of candidate [t] against query [q]
    (both lowered) all fail: the acronym test is reached. *)
Definition reachesStep7 (t q : string) : Prop :=
  (String.length q <= String.length t)%nat /\
  t <> q /\
  prefix q t = false /\
  ~ isSubstring (" " ++ q) t /\
  ~ isSubstring q t /\
  String.length q <> 1%nat.

(** Steps 1 to 7 all fail: the in-order scan is reached. *)
Definition reachesStep8 (t q : string) : Prop :=
  reachesStep7 t q /\ ~ isSubstring q (getAcronym t).

(** The order of the output: tier descending, then selector index ascending,
    then input index ascending. *)
Definition before (a b : ranked) : Prop :=
  rank a > rank b \/
  (rank a = rank b /\
   (keyIndex a < keyIndex b \/
    (keyIndex a = keyIndex b /\ index a < index b))).

(** The records [matchedItems] builds, by recursion on the items: the one of
    the item at position [i] is kept when its rank is above [noMatch]. *)
Fixpoint rankedFrom (keys : option (list string)) (value : jsValue)
         (items : list jsValue) (i : Z) : result (list ranked) :=
  match items with
  | [] => Ok []
  | x :: rest =>
      '(r, k) <- getHighestRanking x keys value ;;
      recs <- rankedFrom keys value rest (i + 1) ;;
      Ok (if r >? matchRankMap.noMatch then mkRanked x r i k :: recs else recs)
  end.

(** What holds of a record of a call on [items]: it carries an item at its
    input position and the ranking of that item, which is above [noMatch]. *)
Definition recordOf (keys : option (list string)) (value : jsValue)
           (items : list jsValue) (i : Z) (r : ranked) : Prop :=
  i <= index r /\
  nth_error items (Z.to_nat (index r - i)) = Some (item r) /\
  getHighestRanking (item r) keys value = Ok (rank r, keyIndex r) /\
  rank r > matchRankMap.noMatch.

(** The records of [l] renumbered by position, from [i] on. *)
Fixpoint renumber (i : Z) (l : list ranked) : list ranked :=
  match l with
  | [] => []
  | r :: l' => mkRanked (item r) (rank r) i (keyIndex r) :: renumber (i + 1) l'
  end.

(** The names of the properties of [Object.prototype] (ECMAScript, with its
    annex on web browsers): a read of one of them on a record gives the
    inherited member unless the record has an own property of that name. *)
Definition objectPrototypeMembers : list string :=
  ["constructor"; "hasOwnProperty"; "isPrototypeOf"; "propertyIsEnumerable";
   "toLocaleString"; "toString"; "valueOf"; "__proto__";
   "__defineGetter__"; "__defineSetter__";
   "__lookupGetter__"; "__lookupSetter__"].

(** [key] names no field of the record [item]: neither an own property nor
    a member it inherits.  Only records have fields; of [undefined] and
    [null] no property can be read at all. *)
Definition absentField (item : jsValue) (key : string) : Prop :=
  match item with
  | VObj fields =>
      lookup fields key = None /\
      existsb (String.eqb key) objectPrototypeMembers = false
  | _ => False
  end.

(** The values the template literal renders as [toString] says: the numbers
    among the exact integers (they print in plain decimal) and the records
    with no own property [toString] (with one, which is no function here,
    the conversion raises a [TypeError]). *)
Definition renderable (v : jsValue) : Prop :=
  match v with
  | VNum n => Z.abs n < 2 ^ 53
  | VObj fields => lookup fields "toString" = None
  | _ => True
  end.

Definition emptyText (v : jsValue) : bool := String.eqb (toString v) EmptyString.

(** [undefined] and [null]: the values no property can be read of. *)
Definition isNullish (v : jsValue) : bool :=
  match v with
  | VUndefined | VNull => true
  | _ => false
  end.

(** The test of [reduceItemsToRanked] on one item: its ranking is above
    [noMatch]. *)
Definition survives (keys : option (list string)) (value x : jsValue) : bool :=
  match getHighestRanking x keys value with
  | Ok (r, _) => r >? matchRankMap.noMatch
  | Throw _ => false
  end.

(** What [item[key]] reads, [undefined] where the read raises. *)
Definition fieldOf (key : string) (x : jsValue) : jsValue :=
  match getProp x key with
  | Ok v => v
  | Throw _ => VUndefined
  end.

(** ** The scenarios of the test suite *)

Example test_too_long :
  matchSorter [VStr "Chakotay"; VStr "Charzard"] (VStr "JonathanJonathan")
              defaultOptions = Ok [].
Proof. reflexivity. Qed.

Example test_no_items_match :
  matchSorter [VStr "Chakotay"; VStr "Charzard"] (VStr "nomatch")
              defaultOptions = Ok [].
Proof. reflexivity. Qed.

Example test_items_that_match :
  matchSorter [VStr "Chakotay"; VStr "Brunt"; VStr "Charzard"] (VStr "Ch")
              defaultOptions = Ok [VStr "Chakotay"; VStr "Charzard"].
Proof. reflexivity. Qed.

Example test_best_order :
  matchSorter
    (map VStr ["The Tail of Two Cities 1"; "tTOtc"; "The 1-ttotc-2 container";
               "The Tail of Forty Cities"; "The Tail of Two Cities";
               "Word starts with ttotc-first right?";
               "The Tail of Fifty Cities"; "no match";
               "The second 3-ttotc-4 container"; "ttotc-starts with";
               "Another word starts with ttotc-second, super!";
               "ttotc-2nd-starts with"; "TTotc"])
    (VStr "ttotc") defaultOptions =
  Ok (map VStr ["tTOtc"; "TTotc"; "ttotc-starts with"; "ttotc-2nd-starts with";
                "Word starts with ttotc-first right?";
                "Another word starts with ttotc-second, super!";
                "The 1-ttotc-2 container"; "The second 3-ttotc-4 container";
                "The Tail of Two Cities 1"; "The Tail of Two Cities";
                "The Tail of Forty Cities"; "The Tail of Fifty Cities"]).
Proof. vm_compute. reflexivity. Qed.

Example test_single_key :
  matchSorter [VObj [("name", VStr "baz")]; VObj [("name", VStr "bat")];
               VObj [("name", VStr "foo")]]
              (VStr "ba") (mkOptions (Some ["name"])) =
  Ok [VObj [("name", VStr "baz")]; VObj [("name", VStr "bat")]].
Proof. reflexivity. Qed.

Example test_multiple_keys :
  matchSorter [VObj [("name", VStr "baz"); ("reverse", VStr "zab")];
               VObj [("name", VStr "bat"); ("reverse", VStr "tab")];
               VObj [("name", VStr "foo"); ("reverse", VStr "oof")];
               VObj [("name", VStr "bag"); ("reverse", VStr "gab")]]
              (VStr "ab") (mkOptions (Some ["name"; "reverse"])) =
  Ok [VObj [("name", VStr "baz"); ("reverse", VStr "zab")];
      VObj [("name", VStr "bat"); ("reverse", VStr "tab")];
      VObj [("name", VStr "bag"); ("reverse", VStr "gab")]].
Proof. reflexivity. Qed.

Example test_first_keys_first :
  matchSorter
    [VObj [("first", VStr "not"); ("second", VStr "not");
           ("third", VStr "match")];
     VObj [("first", VStr "not"); ("second", VStr "not");
           ("third", VStr "not"); ("fourth", VStr "match")];
     VObj [("first", VStr "not"); ("second", VStr "match")];
     VObj [("first", VStr "match"); ("second", VStr "not")]]
    (VStr "match") (mkOptions (Some ["first"; "second"; "third"; "fourth"])) =
  Ok [VObj [("first", VStr "match"); ("second", VStr "not")];
      VObj [("first", VStr "not"); ("second", VStr "match")];
      VObj [("first", VStr "not"); ("second", VStr "not");
            ("third", VStr "match")];
      VObj [("first", VStr "not"); ("second", VStr "not");
            ("third", VStr "not"); ("fourth", VStr "match")]].
Proof. reflexivity. Qed.

Example test_nullish_item_with_keys :
  matchSorter [VObj [("name", VStr "a")]; VNull] (VStr "a")
              (mkOptions (Some ["name"])) = Throw TypeError.
Proof. reflexivity. Qed.

(** ** Strings *)

Lemma append_nil_r (s : string) : s ++ "" = s.
Proof. induction s as [|c s IH]; simpl; [reflexivity | now rewrite IH]. Qed.

Lemma append_assoc (a b c : string) : (a ++ b) ++ c = a ++ (b ++ c).
Proof. induction a as [|x a IH]; simpl; [reflexivity | now rewrite IH]. Qed.

Lemma length_append (a b : string) :
  String.length (a ++ b) = (String.length a + String.length b)%nat.
Proof. induction a as [|x a IH]; simpl; [reflexivity | now rewrite IH]. Qed.

Lemma chars_append (a b : string) :
  list_ascii_of_string (a ++ b) =
  (list_ascii_of_string a ++ list_ascii_of_string b)%list.
Proof. induction a as [|x a IH]; simpl; [reflexivity | now rewrite IH]. Qed.

Lemma prefix_nil (s : string) : prefix "" s = true.
Proof. destruct s; reflexivity. Qed.

Lemma prefix_append (q s : string) :
  prefix q s = true <-> exists b, s = q ++ b.
Proof.
  revert s; induction q as [|c q IH]; intros s.
  - rewrite prefix_nil. split; [exists s; reflexivity | reflexivity].
  - destruct s as [|d s]; simpl.
    + split; [discriminate | intros [b Hb]; discriminate].
    + destruct (ascii_dec c d) as [->|Hcd].
      * rewrite IH. split; intros [b Hb]; exists b.
        -- now rewrite Hb.
        -- now inversion Hb.
      * split; [discriminate | intros [b Hb]; inversion Hb; congruence].
Qed.

Lemma prefix_length (q s : string) :
  prefix q s = true -> (String.length q <= String.length s)%nat.
Proof.
  intros H. apply prefix_append in H as [b ->]. rewrite length_append. lia.
Qed.

Lemma prefix_toLowerCase (q s : string) :
  prefix q s = true -> toLowerCase s = s -> toLowerCase q = q.
Proof.
  revert s; induction q as [|c q IH]; intros s Hp Hs; [reflexivity|].
  destruct s as [|d s]; simpl in Hp; [discriminate|].
  destruct (ascii_dec c d) as [->|]; [|discriminate].
  simpl in Hs. injection Hs as Hd Hs'. simpl. f_equal; [exact Hd|].
  exact (IH s Hp Hs').
Qed.

(** [indexOf] answers [-1] or a position, and a position only where the
    search string starts. *)
Lemma indexOfFrom_range (s q : string) (k : Z) :
  indexOfFrom s q k = -1 \/ k <= indexOfFrom s q k.
Proof.
  revert k; induction s as [|c s IH]; intros k; cbn [indexOfFrom].
  - destruct (prefix q ""); [right; lia | now left].
  - destruct (prefix q (String c s)); [right; lia|].
    destruct (IH (k + 1)) as [H|H]; [now left | right; lia].
Qed.

Lemma indexOfFrom_start (s q : string) (k : Z) :
  0 <= k -> (indexOfFrom s q k = k <-> prefix q s = true).
Proof.
  intros Hk. destruct s as [|c s]; cbn [indexOfFrom].
  - destruct (prefix q ""); [tauto | split; [lia | discriminate]].
  - destruct (prefix q (String c s)); [tauto|].
    split; [|discriminate].
    destruct (indexOfFrom_range s q (k + 1)); lia.
Qed.

Lemma indexOf_zero (s q : string) :
  indexOf s q = 0 <-> prefix q s = true.
Proof. apply indexOfFrom_start; lia. Qed.

Lemma indexOfFrom_found (s q : string) (k : Z) :
  0 <= k -> (indexOfFrom s q k <> -1 <-> isSubstring q s).
Proof.
  revert k; induction s as [|c s IH]; intros k Hk; cbn [indexOfFrom].
  - destruct (prefix q "") eqn:Hp.
    + split; [intros _ | lia].
      apply prefix_append in Hp as [b Hb]. now exists "", b.
    + split; [congruence|]. intros [a [b Hab]].
      destruct a; [|discriminate]. simpl in Hab.
      assert (prefix q "" = true) by (apply prefix_append; now exists b).
      congruence.
  - destruct (prefix q (String c s)) eqn:Hp.
    + split; [intros _ | lia].
      apply prefix_append in Hp as [b Hb]. now exists "", b.
    + rewrite (IH (k + 1)) by lia. split; intros [a [b Hab]].
      * exists (String c a), b. simpl. now rewrite Hab.
      * destruct a as [|d a].
        -- simpl in Hab.
           assert (prefix q (String c s) = true)
             by (apply prefix_append; now exists b).
           congruence.
        -- inversion Hab. now exists a, b.
Qed.

Lemma indexOf_found (s q : string) :
  indexOf s q <> -1 <-> isSubstring q s.
Proof. apply indexOfFrom_found; lia. Qed.

Lemma indexOf_eqb_found (s q : string) :
  negb (indexOf s q =? -1) = true <-> isSubstring q s.
Proof.
  rewrite <- indexOf_found, negb_true_iff, Z.eqb_neq. tauto.
Qed.

Lemma isSubstring_chars (c : ascii) (q s : string) :
  isSubstring q s -> In c (list_ascii_of_string q) ->
  In c (list_ascii_of_string s).
Proof.
  intros [a [b ->]] Hc. rewrite !chars_append, !in_app_iff. tauto.
Qed.

(** ** The acronym *)

Lemma fold_left_append (f : string -> string) (l : list string) (acc : string) :
  fold_left (fun a w => a ++ f w) l acc = acc ++ concatAll (map f l).
Proof.
  revert acc; induction l as [|w l IH]; intros acc; simpl.
  - now rewrite append_nil_r.
  - now rewrite IH, append_assoc.
Qed.

Lemma concatAll_app (l1 l2 : list string) :
  concatAll (l1 ++ l2) = concatAll l1 ++ concatAll l2.
Proof.
  induction l1 as [|w l1 IH]; simpl; [reflexivity|].
  now rewrite IH, append_assoc.
Qed.

Lemma concatAll_flat_map (f : string -> string) (g : string -> list string)
      (l : list string) :
  concatAll (map (fun w => concatAll (map f (g w))) l) =
  concatAll (map f (flat_map g l)).
Proof.
  induction l as [|w l IH]; simpl; [reflexivity|].
  now rewrite map_app, concatAll_app, IH.
Qed.

Lemma concatAll_firstChar_filter (l : list string) :
  concatAll (map firstChar (filter nonEmpty l)) = concatAll (map firstChar l).
Proof.
  induction l as [|w l IH]; simpl; [reflexivity|].
  destruct w as [|c w]; simpl; [exact IH | now rewrite IH].
Qed.

Lemma substr_firstChar (w : string) : substr w 0 1 = firstChar w.
Proof. destruct w as [|c [|d w]]; reflexivity. Qed.

Lemma getAcronym_fold (ws : list string) (acc : string) :
  fold_left
    (fun acronym wordInString =>
       fold_left
         (fun acronym splitByHyphenWord =>
            acronym ++ substr splitByHyphenWord 0 1)
         (split "-" wordInString) acronym)
    ws acc =
  acc ++ concatAll (map (fun w => concatAll (map firstChar (split "-" w))) ws).
Proof.
  revert acc; induction ws as [|w ws IH]; intros acc; simpl.
  - now rewrite append_nil_r.
  - rewrite IH, (fold_left_append (fun w => substr w 0 1)), append_assoc.
    do 3 f_equal. apply map_ext. intros x. apply substr_firstChar.
Qed.

Lemma getAcronym_spec (s : string) : getAcronym s = acronymSpec s.
Proof.
  unfold getAcronym, acronymSpec, subWords.
  rewrite concatAll_firstChar_filter, <- concatAll_flat_map.
  now rewrite getAcronym_fold.
Qed.

(** [split] cuts at every separator and nowhere else. *)
Lemma split_not_nil (sep : ascii) (s : string) : split sep s <> [].
Proof.
  destruct s as [|c s]; simpl; [discriminate|].
  destruct (Ascii.eqb c sep); [discriminate|].
  destruct (split sep s); discriminate.
Qed.

Lemma join_split (sep : ascii) (s : string) : join sep (split sep s) = s.
Proof.
  induction s as [|c s IH]; [reflexivity|].
  cbn [split]. pose proof (split_not_nil sep s) as Hn.
  destruct (split sep s) as [|w ws]; [congruence|].
  destruct (Ascii.eqb_spec c sep) as [->|Hc].
  - cbn [join append]. cbn [join] in IH. now rewrite IH.
  - destruct ws as [|w' ws]; cbn [join append] in *; now rewrite IH.
Qed.

Lemma split_no_sep (sep : ascii) (s w : string) :
  In w (split sep s) -> ~ In sep (list_ascii_of_string w).
Proof.
  revert w; induction s as [|c s IH]; intros w; cbn [split].
  - intros [<-|[]]. simpl. tauto.
  - destruct (Ascii.eqb_spec c sep) as [->|Hc].
    + intros [<-|Hw]; [simpl; tauto | now apply IH].
    + destruct (split sep s) as [|w0 ws].
      * intros [<-|[]]. simpl. intros [H|[]]. congruence.
      * intros [<-|Hw].
        -- simpl. intros [H|H]; [congruence|].
           apply (IH w0); [now left | exact H].
        -- apply IH. now right.
Qed.

(** ** The in-order scan *)

Lemma drop_nil (n : nat) : drop n "" = "".
Proof. destruct n; reflexivity. Qed.

Lemma drop_add (n k : nat) (s : string) : drop (n + k) s = drop k (drop n s).
Proof.
  revert s; induction n as [|n IH]; intros s; simpl; [reflexivity|].
  destruct s as [|c s]; [now rewrite drop_nil | apply IH].
Qed.

Lemma get_drop (j : nat) (s : string) :
  get j s = match drop j s with
            | EmptyString => None
            | String d _ => Some d
            end.
Proof.
  revert s; induction j as [|j IH]; intros [|c s]; simpl; try reflexivity.
  apply IH.
Qed.

Lemma length_drop (j : nat) (s : string) :
  String.length (drop j s) = (String.length s - j)%nat.
Proof.
  revert s; induction j as [|j IH]; intros [|c s]; simpl; try reflexivity.
  apply IH.
Qed.

Lemma findLoop_findIn (fuel j : nat) (c : ascii) (s : string) :
  (String.length s - j <= fuel)%nat ->
  findLoop fuel j c s = option_map (fun k => (j + k)%nat) (findIn c (drop j s)).
Proof.
  revert j; induction fuel as [|fuel IH]; intros j Hf.
  - pose proof (length_drop j s) as Hl.
    destruct (drop j s); [reflexivity | simpl in Hl; lia].
  - cbn [findLoop]. rewrite get_drop.
    pose proof (drop_add j 1 s) as Hd. pose proof (length_drop j s) as Hl.
    destruct (drop j s) as [|d s'] eqn:Hs; [reflexivity|].
    cbn [findIn]. destruct (Ascii.eqb d c).
    + simpl. f_equal. lia.
    + rewrite IH by lia. replace (S j) with (j + 1)%nat by lia.
      rewrite Hd. cbn [drop].
      destruct (findIn c s'); simpl; [f_equal; lia | reflexivity].
Qed.

Lemma charOrderLoop_greedy (t q : string) (n : nat) :
  charOrderLoop t q n =
  if greedy q (drop n t) then matchRankMap.matches else matchRankMap.noMatch.
Proof.
  revert n; induction q as [|c q IH]; intros n; [reflexivity|].
  cbn [charOrderLoop greedy]. unfold findMatchingCharacter.
  rewrite findLoop_findIn by lia.
  destruct (findIn c (drop n t)) as [k|]; simpl; [|reflexivity].
  now rewrite IH, drop_add.
Qed.

Lemma subseq_tail (c : ascii) (q s : string) :
  subseq (String c q) s -> subseq q s.
Proof.
  induction s as [|d s IH]; intros H; inversion H; subst.
  - apply subseq_skip. now apply IH.
  - now apply subseq_skip.
Qed.

Lemma findIn_subseq (c : ascii) (q s : string) (k : nat) :
  findIn c s = Some k -> subseq q (drop k s) -> subseq (String c q) s.
Proof.
  revert k; induction s as [|d s IH]; intros k; cbn [findIn]; [discriminate|].
  destruct (Ascii.eqb_spec d c) as [->|Hd].
  - intros [= <-] H. now apply subseq_take.
  - destruct (findIn c s) as [k'|]; [|discriminate].
    intros [= <-] H. apply subseq_skip. now apply (IH k').
Qed.

Lemma subseq_findIn (c : ascii) (q s : string) :
  subseq (String c q) s ->
  exists k, findIn c s = Some k /\ subseq q (drop k s).
Proof.
  induction s as [|d s IH]; intros H; inversion H; subst; cbn [findIn].
  - destruct (Ascii.eqb_spec d c) as [->|Hd].
    + exists 1%nat. split; [reflexivity|]. simpl. now apply subseq_tail with c.
    + destruct (IH H2) as [k [Hk Hs]]. exists (S k). now rewrite Hk.
  - rewrite Ascii.eqb_refl. now exists 1%nat.
Qed.

Lemma greedy_subseq (q s : string) : greedy q s = true <-> subseq q s.
Proof.
  revert s; induction q as [|c q IH]; intros s; cbn [greedy].
  - split; [intros _; constructor | reflexivity].
  - split.
    + destruct (findIn c s) as [k|] eqn:Hk; [|discriminate].
      intros Hg. apply (findIn_subseq c q s k Hk). now apply IH.
    + intros H. destruct (subseq_findIn c q s H) as [k [Hk Hs]].
      rewrite Hk. now apply IH.
Qed.

Lemma stringsByCharOrder_subseq (t q : string) :
  stringsByCharOrder t q =
  matchRankMap.matches <-> subseq q t.
Proof.
  unfold stringsByCharOrder. rewrite charOrderLoop_greedy. cbn [drop].
  rewrite <- greedy_subseq. destruct (greedy q t); split; try reflexivity;
    discriminate.
Qed.

Lemma stringsByCharOrder_values (t q : string) :
  stringsByCharOrder t q = matchRankMap.matches \/
  stringsByCharOrder t q = matchRankMap.noMatch.
Proof.
  unfold stringsByCharOrder. rewrite charOrderLoop_greedy.
  destruct (greedy q (drop 0 t)); [now left | now right].
Qed.

(** ** Subsequences by positions *)

Lemma shift_sorted (ps : list nat) :
  StronglySorted lt ps -> StronglySorted lt (map S ps).
Proof.
  induction ps as [|p ps IH]; intros Hs; simpl; constructor.
  - apply IH. now apply StronglySorted_inv in Hs as [Hs _].
  - apply StronglySorted_inv in Hs as [_ Hp].
    apply Forall_map. eapply Forall_impl; [|exact Hp]. simpl. intros; lia.
Qed.

Lemma unshift_sorted (ps : list nat) :
  Forall (lt 0%nat) ps -> StronglySorted lt ps ->
  ps = map S (map pred ps) /\ StronglySorted lt (map pred ps).
Proof.
  induction ps as [|p ps IH]; intros Hpos Hs; simpl.
  - split; [reflexivity | constructor].
  - inversion Hpos as [|? ? Hp Hpos']; subst.
    apply StronglySorted_inv in Hs as [Hs Hlt].
    destruct (IH Hpos' Hs) as [Heq Hs'].
    split.
    + rewrite <- Heq. f_equal. lia.
    + constructor; [exact Hs'|].
      apply Forall_map. rewrite Forall_forall in *.
      intros x Hx. specialize (Hlt x Hx). specialize (Hpos' x Hx). lia.
Qed.

Lemma get_unshift (c : ascii) (s : string) (ps : list nat) :
  Forall (lt 0%nat) ps ->
  map (fun p => get p (String c s)) ps = map (fun p => get p s) (map pred ps).
Proof.
  induction 1 as [|p ps Hp _ IH]; simpl; [reflexivity|].
  destruct p; [lia|]. simpl. now f_equal.
Qed.

Lemma subseq_occursAt (q t : string) :
  subseq q t <-> exists ps, occursAt q t ps.
Proof.
  split.
  - induction 1 as [s|q c s _ [ps [Hs Hm]]|q c s _ [ps [Hs Hm]]].
    + exists []. split; [constructor | reflexivity].
    + exists (map S ps). split; [now apply shift_sorted|].
      now rewrite map_map.
    + exists (0%nat :: map S ps). split.
      * constructor; [now apply shift_sorted|].
        apply Forall_map, Forall_forall. intros; lia.
      * simpl. f_equal. now rewrite map_map.
  - revert q; induction t as [|c s IH]; intros q [ps [Hs Hm]].
    + destruct ps as [|p ps]; destruct q as [|d q]; try discriminate.
      constructor.
    + destruct ps as [|p ps]; [destruct q; [constructor | discriminate]|].
      destruct p as [|p].
      * destruct q as [|d q]; [discriminate|].
        injection Hm as Hp Hm. subst d.
        apply StronglySorted_inv in Hs as [Hs Hlt].
        destruct (unshift_sorted ps Hlt Hs) as [_ Hs'].
        apply subseq_take. apply IH. exists (map pred ps).
        split; [exact Hs'|]. now rewrite <- get_unshift with (c := c).
      * assert (Hpos : Forall (lt 0%nat) (S p :: ps)).
        { apply StronglySorted_inv in Hs as [_ Hlt].
          constructor; [lia|]. eapply Forall_impl; [|exact Hlt].
          simpl. intros; lia. }
        destruct (unshift_sorted _ Hpos Hs) as [_ Hs'].
        apply subseq_skip. apply IH. exists (map pred (S p :: ps)).
        split; [exact Hs'|]. now rewrite <- get_unshift with (c := c).
Qed.

(** ** The classifier *)

Lemma getMatchRanking_range (v q : jsValue) :
  matchRankMap.noMatch <= getMatchRanking v q <= matchRankMap.equals.
Proof.
  unfold getMatchRanking.
  repeat match goal with
         | |- context [if ?b then _ else _] => destruct b
         end;
    try (unfold matchRankMap.noMatch, matchRankMap.equals,
         matchRankMap.startsWith, matchRankMap.wordStartsWith,
         matchRankMap.contains, matchRankMap.acronym; lia).
  destruct (stringsByCharOrder_values (lowered v) (lowered q)) as [-> | ->];
    unfold matchRankMap.noMatch, matchRankMap.equals, matchRankMap.matches; lia.
Qed.

(** A rank given by one of the steps 2 to 5 means that the query occurs in
    the candidate. *)
Lemma getMatchRanking_early (v q : jsValue) :
  (String.length (lowered q) <= String.length (lowered v))%nat ->
  ~ isSubstring (lowered q) (lowered v) ->
  getMatchRanking v q =
  if (String.length (lowered q) =? 1)%nat then matchRankMap.noMatch
  else if negb (indexOf (getAcronym (lowered v)) (lowered q) =? -1)
       then matchRankMap.acronym
       else stringsByCharOrder (lowered v) (lowered q).
Proof.
  intros Hlen Hsub. unfold getMatchRanking.
  set (t := lowered v) in *. set (s := lowered q) in *.
  assert (Hlt : (String.length t <? String.length s)%nat = false)
    by (apply Nat.ltb_ge; exact Hlen).
  rewrite Hlt.
  destruct (String.eqb_spec t s) as [Heq|_].
  { exfalso. apply Hsub. exists "", "". simpl. now rewrite append_nil_r. }
  destruct (Z.eqb_spec (indexOf t s) 0) as [H0|_].
  { exfalso. apply Hsub, indexOf_found. lia. }
  destruct (negb (indexOf t (" " ++ s) =? -1)) eqn:Hw.
  { exfalso. apply Hsub. apply indexOf_eqb_found in Hw as [a [b ->]].
    exists (a ++ " "), b. now rewrite !append_assoc. }
  destruct (negb (indexOf t s =? -1)) eqn:Hc.
  { exfalso. apply Hsub. now apply indexOf_eqb_found. }
  reflexivity.
Qed.

Lemma reachesStep7_sound (v q : jsValue) :
  reachesStep7 (lowered v) (lowered q) ->
  getMatchRanking v q =
  if negb (indexOf (getAcronym (lowered v)) (lowered q) =? -1)
  then matchRankMap.acronym
  else stringsByCharOrder (lowered v) (lowered q).
Proof.
  intros (Hlen & _ & _ & _ & Hsub & H1).
  rewrite (getMatchRanking_early v q Hlen Hsub).
  apply Nat.eqb_neq in H1. now rewrite H1.
Qed.

(** The empty query: a candidate with no text is equal to it, every other
    candidate starts with it. *)
Lemma getMatchRanking_empty_query (v : jsValue) :
  getMatchRanking v (VStr "") =
  if emptyText v then matchRankMap.equals else matchRankMap.startsWith.
Proof.
  unfold getMatchRanking, emptyText, lowered. cbn [toString toLowerCase].
  destruct (toString v) as [|c s]; reflexivity.
Qed.

(** A query that is a proper prefix of the candidate, both lowered. *)
Lemma getMatchRanking_proper_prefix (v q : jsValue) :
  prefix (lowered q) (lowered v) = true ->
  lowered q <> lowered v ->
  getMatchRanking v q = matchRankMap.startsWith.
Proof.
  intros Hp Hne. unfold getMatchRanking.
  pose proof (prefix_length _ _ Hp) as Hlen.
  apply Nat.ltb_ge in Hlen. rewrite Hlen.
  destruct (String.eqb_spec (lowered v) (lowered q)) as [Heq|_];
    [congruence|].
  apply indexOf_zero in Hp. now rewrite Hp.
Qed.

Lemma toLowerCase_uint (d : Decimal.uint) :
  toLowerCase (NilEmpty.string_of_uint d) = NilEmpty.string_of_uint d.
Proof. induction d; simpl; try reflexivity; now rewrite IHd. Qed.

Lemma toLowerCase_number (n : Z) :
  toLowerCase (toString (VNum n)) = toString (VNum n).
Proof.
  cbn [toString]. unfold NilZero.string_of_int.
  destruct (Z.to_int n) as [d|d]; unfold NilZero.string_of_uint.
  - destruct d; try reflexivity; apply toLowerCase_uint.
  - cbn [toLowerCase]. f_equal.
    destruct d; try reflexivity; apply toLowerCase_uint.
Qed.

(** ** The comparator and the sort *)

Lemma sortRankedItems_values (a b : ranked) :
  sortRankedItems a b = -1 \/ sortRankedItems a b = 1.
Proof.
  unfold sortRankedItems.
  repeat match goal with
         | |- context [if ?c then _ else _] => destruct c
         end; auto.
Qed.

Lemma sortRankedItems_before (a b : ranked) :
  sortRankedItems a b = -1 <-> before a b.
Proof.
  unfold sortRankedItems, before.
  destruct (Z.eqb_spec (rank a) (rank b));
    [destruct (Z.eqb_spec (keyIndex a) (keyIndex b));
     [destruct (Z.ltb_spec (index a) (index b))
     |destruct (Z.ltb_spec (keyIndex a) (keyIndex b))]
    |destruct (Z.gtb_spec (rank a) (rank b))]; lia.
Qed.

Lemma sortRankedItems_after (a b : ranked) :
  sortRankedItems a b = 1 -> index a <> index b -> before b a.
Proof.
  unfold sortRankedItems, before.
  destruct (Z.eqb_spec (rank a) (rank b));
    [destruct (Z.eqb_spec (keyIndex a) (keyIndex b));
     [destruct (Z.ltb_spec (index a) (index b))
     |destruct (Z.ltb_spec (keyIndex a) (keyIndex b))]
    |destruct (Z.gtb_spec (rank a) (rank b))]; lia.
Qed.

Lemma before_trans (a b c : ranked) : before a b -> before b c -> before a c.
Proof. unfold before. lia. Qed.

Lemma before_asym (a b : ranked) : before a b -> before b a -> False.
Proof. unfold before. lia. Qed.

Lemma insert_perm {A : Type} (cmp : A -> A -> Z) (x : A) (l : list A) :
  Permutation (insert cmp x l) (x :: l).
Proof.
  induction l as [|y l IH]; simpl; [reflexivity|].
  destruct (cmp x y <? 0); [reflexivity|].
  rewrite IH. apply perm_swap.
Qed.

Lemma sort_perm {A : Type} (cmp : A -> A -> Z) (l : list A) :
  Permutation (sort cmp l) l.
Proof.
  induction l as [|x l IH]; simpl; [reflexivity|].
  unfold sort in *. rewrite insert_perm. now constructor.
Qed.

Lemma insert_sorted (x : ranked) (l : list ranked) :
  StronglySorted before l ->
  Forall (fun y => index x <> index y) l ->
  StronglySorted before (insert sortRankedItems x l).
Proof.
  induction l as [|y l IH]; intros Hs Hd; simpl.
  - constructor; constructor.
  - apply StronglySorted_inv in Hs as [Hs Hy].
    inversion Hd as [|? ? Hxy Hd']; subst.
    destruct (Z.ltb_spec (sortRankedItems x y) 0) as [Hlt|Hge].
    + assert (Hb : before x y).
      { apply sortRankedItems_before.
        destruct (sortRankedItems_values x y); lia. }
      constructor; [now constructor|].
      constructor; [exact Hb|].
      eapply Forall_impl; [|exact Hy].
      intros z. now apply before_trans.
    + assert (Hb : before y x).
      { apply sortRankedItems_after; [|exact Hxy].
        destruct (sortRankedItems_values x y); lia. }
      constructor; [now apply IH|].
      eapply Permutation_Forall; [symmetry; apply insert_perm|].
      now constructor.
Qed.

Lemma sort_sorted (l : list ranked) :
  NoDup (map index l) ->
  StronglySorted before (sort sortRankedItems l).
Proof.
  induction l as [|x l IH]; intros Hd; simpl; [constructor|].
  inversion Hd as [|? ? Hx Hd']; subst.
  apply insert_sorted; [now apply IH|].
  eapply Permutation_Forall; [symmetry; apply sort_perm|].
  apply Forall_forall. intros y Hy Heq. apply Hx.
  rewrite Heq. now apply in_map.
Qed.

(** Two arrangements of the same records that are both in order are the same
    list: the result does not depend on how the sort proceeds. *)
Lemma sorted_unique (l1 l2 : list ranked) :
  StronglySorted before l1 -> StronglySorted before l2 ->
  Permutation l1 l2 -> l1 = l2.
Proof.
  revert l2; induction l1 as [|a l1 IH]; intros l2 H1 H2 Hp.
  - apply Permutation_nil in Hp. now subst.
  - destruct l2 as [|b l2].
    { symmetry in Hp. now apply Permutation_nil in Hp. }
    apply StronglySorted_inv in H1 as [H1 Ha].
    apply StronglySorted_inv in H2 as [H2 Hb].
    assert (Hab : a = b).
    { assert (Hin : In a (b :: l2))
        by (eapply Permutation_in; [exact Hp | now left]).
      assert (Hin' : In b (a :: l1))
        by (eapply Permutation_in; [symmetry; exact Hp | now left]).
      destruct Hin as [Heq|Hin]; [now symmetry|].
      destruct Hin' as [Heq|Hin']; [exact Heq|].
      rewrite Forall_forall in Ha, Hb.
      destruct (before_asym a b); auto. }
    subst b. f_equal. apply IH; auto.
    now apply Permutation_cons_inv in Hp.
Qed.

Lemma sort_unique (l l' : list ranked) :
  NoDup (map index l) ->
  Permutation l' l -> StronglySorted before l' ->
  l' = sort sortRankedItems l.
Proof.
  intros Hd Hp Hs. apply sorted_unique; [exact Hs | now apply sort_sorted|].
  rewrite Hp. symmetry. apply sort_perm.
Qed.

Lemma sort_sorted_id (l : list ranked) :
  StronglySorted before l -> sort sortRankedItems l = l.
Proof.
  induction l as [|x l IH]; intros Hs; [reflexivity|].
  apply StronglySorted_inv in Hs as [Hs Hx].
  simpl. rewrite (IH Hs).
  destruct l as [|y l]; [reflexivity|].
  simpl. inversion Hx as [|? ? Hxy _]; subst.
  apply sortRankedItems_before in Hxy. now rewrite Hxy.
Qed.

Lemma sorted_split (a b : ranked) (l1 l2 l3 : list ranked) :
  StronglySorted before (l1 ++ a :: l2 ++ b :: l3) -> before a b.
Proof.
  induction l1 as [|x l1 IH]; simpl; intros Hs.
  - apply StronglySorted_inv in Hs as [_ Ha].
    rewrite Forall_forall in Ha. apply Ha.
    apply in_or_app. right. now left.
  - apply StronglySorted_inv in Hs as [Hs _]. now apply IH.
Qed.

(** ** Lists in order *)

Lemma StronglySorted_filter {A : Type} (R : A -> A -> Prop) (p : A -> bool)
      (l : list A) :
  StronglySorted R l -> StronglySorted R (filter p l).
Proof.
  induction l as [|x l IH]; intros Hs; simpl; [constructor|].
  apply StronglySorted_inv in Hs as [Hs Hx].
  destruct (p x); [|now apply IH].
  constructor; [now apply IH|].
  rewrite Forall_forall in *. intros y Hy. apply Hx.
  now apply filter_In in Hy.
Qed.

Lemma StronglySorted_app {A : Type} (R : A -> A -> Prop) (l1 l2 : list A) :
  StronglySorted R l1 -> StronglySorted R l2 ->
  (forall a b, In a l1 -> In b l2 -> R a b) ->
  StronglySorted R (l1 ++ l2).
Proof.
  induction l1 as [|x l1 IH]; intros H1 H2 H; simpl; [exact H2|].
  apply StronglySorted_inv in H1 as [H1 Hx].
  constructor.
  - apply IH; auto. intros a b Ha Hb. apply H; [now right | exact Hb].
  - apply Forall_app. split; [exact Hx|].
    apply Forall_forall. intros b Hb. apply H; [now left | exact Hb].
Qed.

Lemma StronglySorted_weaken {A : Type} (R R' : A -> A -> Prop) (l : list A) :
  StronglySorted R l ->
  (forall a b, In a l -> In b l -> R a b -> R' a b) ->
  StronglySorted R' l.
Proof.
  induction l as [|x l IH]; intros Hs H; [constructor|].
  apply StronglySorted_inv in Hs as [Hs Hx].
  constructor.
  - apply IH; [exact Hs|]. intros a b Ha Hb. apply H; now right.
  - rewrite Forall_forall in *. intros y Hy.
    apply H; [now left | now right | now apply Hx].
Qed.

Lemma filter_partition_perm {A : Type} (p : A -> bool) (l : list A) :
  Permutation (filter p l ++ filter (fun x => negb (p x)) l) l.
Proof.
  induction l as [|x l IH]; simpl; [reflexivity|].
  destruct (p x); simpl.
  - now constructor.
  - rewrite <- Permutation_middle. now constructor.
Qed.

(** ** The records of one call *)

Lemma reduceFrom_ranked (keys : option (list string)) (value : jsValue)
      (items : list jsValue) (i : Z) (acc : list ranked) :
  reduceFrom (reduceItemsToRanked keys value) items i acc =
  (recs <- rankedFrom keys value items i ;; Ok (acc ++ recs)%list).
Proof.
  revert i acc; induction items as [|x items IH]; intros i acc;
    cbn [reduceFrom rankedFrom].
  - simpl. now rewrite app_nil_r.
  - unfold reduceItemsToRanked at 1.
    destruct (getHighestRanking x keys value) as [[r k]|e]; cbn [bind];
      [|reflexivity].
    destruct (r >? matchRankMap.noMatch); cbn [bind]; rewrite IH;
      destruct (rankedFrom keys value items (i + 1)) as [recs|e]; cbn [bind];
      try reflexivity.
    now rewrite <- app_assoc.
Qed.

Lemma matchedItems_ranked (items : list jsValue) (value : jsValue)
      (options : Options) :
  matchedItems items value options = rankedFrom (keys options) value items 0.
Proof.
  unfold matchedItems, reduce. rewrite reduceFrom_ranked.
  now destruct (rankedFrom (keys options) value items 0).
Qed.

Lemma rankedFrom_records (keys : option (list string)) (value : jsValue)
      (items : list jsValue) (i : Z) (recs : list ranked) :
  rankedFrom keys value items i = Ok recs ->
  Forall (recordOf keys value items i) recs /\
  StronglySorted (fun a b => index a < index b) recs.
Proof.
  revert i recs; induction items as [|x items IH]; intros i recs; simpl.
  - intros [= <-]. split; constructor.
  - destruct (getHighestRanking x keys value) as [[r k]|e] eqn:Hx; simpl;
      [|discriminate].
    destruct (rankedFrom keys value items (i + 1)) as [rest|e] eqn:Hr; simpl;
      [|discriminate].
    destruct (IH (i + 1) rest Hr) as [Hf Hs].
    assert (Hf' : Forall (recordOf keys value (x :: items) i) rest).
    { eapply Forall_impl; [|exact Hf].
      intros a (Hi & Hn & Hg & Hk). repeat split; auto; try lia.
      replace (Z.to_nat (index a - i)) with (S (Z.to_nat (index a - (i + 1))))
        by lia.
      exact Hn. }
    destruct (Z.gtb_spec r matchRankMap.noMatch) as [Hgt|Hle];
      intros [= <-]; [|now split].
    split.
    + constructor; [|exact Hf'].
      repeat split; simpl; auto; try lia.
      now replace (i - i) with 0 by lia.
    + constructor; [exact Hs|].
      eapply Forall_impl; [|exact Hf].
      intros a (Hi & _). simpl. lia.
Qed.

Lemma rankedFrom_complete (keys : option (list string)) (value : jsValue)
      (items : list jsValue) (i : Z) (recs : list ranked)
      (n : nat) (x : jsValue) (r k : Z) :
  rankedFrom keys value items i = Ok recs ->
  nth_error items n = Some x ->
  getHighestRanking x keys value = Ok (r, k) ->
  r > matchRankMap.noMatch ->
  In (mkRanked x r (i + Z.of_nat n) k) recs.
Proof.
  revert i recs n; induction items as [|y items IH]; intros i recs n; simpl.
  - destruct n; discriminate.
  - destruct (getHighestRanking y keys value) as [[r' k']|e] eqn:Hy; simpl;
      [|discriminate].
    destruct (rankedFrom keys value items (i + 1)) as [rest|e] eqn:Hr; simpl;
      [|discriminate].
    intros [= <-] Hn Hx Hgt. destruct n as [|n]; simpl in Hn.
    + injection Hn as ->. rewrite Hx in Hy. injection Hy as <- <-.
      apply Z.gtb_gt in Hgt. rewrite Hgt.
      left. f_equal. lia.
    + assert (Hin : In (mkRanked x r (i + 1 + Z.of_nat n) k) rest)
        by (eapply IH; eauto).
      replace (i + Z.of_nat (S n)) with (i + 1 + Z.of_nat n) by lia.
      destruct (r' >? matchRankMap.noMatch); [now right | exact Hin].
Qed.

Lemma index_sorted_NoDup (l : list ranked) :
  StronglySorted (fun a b => index a < index b) l -> NoDup (map index l).
Proof.
  induction l as [|a l IH]; intros Hs; simpl; constructor.
  - apply StronglySorted_inv in Hs as [_ Ha].
    rewrite Forall_forall in Ha. intros Hin.
    apply in_map_iff in Hin as [b [Hb Hin]]. specialize (Ha b Hin). lia.
  - apply IH. now apply StronglySorted_inv in Hs as [Hs _].
Qed.

(** Records whose items all rank as recorded, ranked again in the order of
    the list, keep ranks and selector indices and take their positions as
    indices. *)
Lemma rankedFrom_renumber (keys : option (list string)) (value : jsValue)
      (l : list ranked) (i : Z) :
  Forall (fun r => getHighestRanking (item r) keys value =
                   Ok (rank r, keyIndex r) /\
                   rank r > matchRankMap.noMatch) l ->
  rankedFrom keys value (map item l) i = Ok (renumber i l).
Proof.
  revert i; induction l as [|r l IH]; intros i Hf; simpl; [reflexivity|].
  inversion Hf as [|? ? [Hg Hk] Hf']; subst.
  rewrite Hg. simpl. rewrite (IH (i + 1) Hf'). simpl.
  apply Z.gtb_gt in Hk. now rewrite Hk.
Qed.

Lemma map_item_renumber (i : Z) (l : list ranked) :
  map item (renumber i l) = map item l.
Proof.
  revert i; induction l as [|r l IH]; intros i; simpl; [reflexivity|].
  now rewrite IH.
Qed.

Lemma renumber_before (r : ranked) (i j : Z) (l : list ranked) :
  i < j -> Forall (before r) l ->
  Forall (before (mkRanked (item r) (rank r) i (keyIndex r))) (renumber j l).
Proof.
  revert j; induction l as [|a l IH]; intros j Hij Hr; simpl; constructor.
  - apply Forall_inv in Hr. unfold before in *. simpl. lia.
  - apply IH; [lia | now apply Forall_inv_tail in Hr].
Qed.

(** Renumbering a list that is in order leaves it in order. *)
Lemma renumber_sorted (i : Z) (l : list ranked) :
  StronglySorted before l -> StronglySorted before (renumber i l).
Proof.
  revert i; induction l as [|r l IH]; intros i Hs; simpl; [constructor|].
  apply StronglySorted_inv in Hs as [Hs Hr].
  constructor; [now apply IH|].
  apply renumber_before; [lia | exact Hr].
Qed.

Lemma matchedItems_records (items : list jsValue) (value : jsValue)
      (options : Options) (recs : list ranked) :
  matchedItems items value options = Ok recs ->
  Forall (recordOf (keys options) value items 0) recs /\
  NoDup (map index recs).
Proof.
  rewrite matchedItems_ranked. intros H.
  apply rankedFrom_records in H as [Hf Hs].
  split; [exact Hf | now apply index_sorted_NoDup].
Qed.

(** ** The field selector *)

Lemma highestRanking_invariant (item value : jsValue) (ks : list string)
      (i r0 k0 r k : Z) :
  0 <= i ->
  (r0 = matchRankMap.noMatch /\ k0 = -1) \/
  (r0 > matchRankMap.noMatch /\ 0 <= k0 < i) ->
  reduceFrom (highestRankingStep item value) ks i (r0, k0) = Ok (r, k) ->
  r0 <= r /\
  ((r = matchRankMap.noMatch /\ k = -1) \/
   (r > matchRankMap.noMatch /\ 0 <= k < i + Z.of_nat (List.length ks))).
Proof.
  revert i r0 k0; induction ks as [|key ks IH]; intros i r0 k0 Hi Hinv;
    cbn [reduceFrom].
  - intros [= <- <-]. simpl. split; [lia|]. lia.
  - unfold highestRankingStep at 1.
    destruct (getProp item key) as [field|e]; cbn [bind]; [|discriminate].
    pose proof (getMatchRanking_range field value) as Hr.
    destruct (Z.gtb_spec (getMatchRanking field value) r0) as [Hgt|Hle];
      cbn [bind]; intros H; apply IH in H; try lia.
    + destruct H as [H1 H2]. split; [lia|]. cbn [List.length]. lia.
    + destruct H as [H1 H2]. split; [lia|]. cbn [List.length]. lia.
Qed.

(** The selector index of a ranking: [-1] without [keys]; with [keys], [-1]
    for [noMatch] and the position of a key otherwise. *)
Lemma getHighestRanking_keyIndex (item : jsValue) (keys : option (list string))
      (value : jsValue) (r k : Z) :
  getHighestRanking item keys value = Ok (r, k) ->
  match keys with
  | None => k = -1
  | Some ks =>
      (r = matchRankMap.noMatch /\ k = -1) \/
      (r > matchRankMap.noMatch /\ 0 <= k < Z.of_nat (List.length ks))
  end.
Proof.
  destruct keys as [ks|]; simpl.
  - unfold reduce. intros H.
    apply highestRanking_invariant in H; [|lia|left; split; reflexivity].
    destruct H as [_ H]. lia.
  - now intros [= _ <-].
Qed.

(** In one call the selector indices of the records are all [-1] or all
    positions of keys. *)
Lemma records_keyIndex_uniform (items : list jsValue) (value : jsValue)
      (options : Options) (recs : list ranked) (a b : ranked) :
  matchedItems items value options = Ok recs ->
  In a recs -> In b recs ->
  (keyIndex a = -1 /\ keyIndex b = -1) \/ (0 <= keyIndex a /\ 0 <= keyIndex b).
Proof.
  intros H Ha Hb. apply matchedItems_records in H as [Hf _].
  rewrite Forall_forall in Hf.
  destruct (Hf a Ha) as (_ & _ & Hga & Hra).
  destruct (Hf b Hb) as (_ & _ & Hgb & Hrb).
  apply getHighestRanking_keyIndex in Hga, Hgb.
  destruct (keys options); lia.
Qed.

Lemma getProp_absent (item : jsValue) (key : string) :
  absentField item key -> getProp item key = Ok VUndefined.
Proof.
  destruct item as [| | b | n | s | fields]; cbn [absentField getProp];
    try tauto.
  intros [-> _]. reflexivity.
Qed.

Lemma getProp_total (item : jsValue) (key : string) :
  item <> VUndefined -> item <> VNull -> exists v, getProp item key = Ok v.
Proof.
  intros Hu Hn. destruct item as [| | b | n | s | fields]; cbn [getProp];
    try congruence; eauto.
  - destruct (String.eqb key "length"); [eauto|].
    destruct (stringIndexKey s key); eauto.
  - destruct (lookup fields key); eauto.
Qed.

(** Ranking an item that has properties to read always returns. *)
Lemma getHighestRanking_total (item : jsValue) (keys : option (list string))
      (value : jsValue) :
  item <> VUndefined -> item <> VNull ->
  exists r k, getHighestRanking item keys value = Ok (r, k).
Proof.
  intros Hu Hn. destruct keys as [ks|]; [|simpl; eauto].
  unfold getHighestRanking, reduce.
  generalize 0 as i. generalize (matchRankMap.noMatch, -1) as best.
  induction ks as [|key ks IH]; intros [r0 k0] i; cbn [reduceFrom].
  - now exists r0, k0.
  - unfold highestRankingStep at 1.
    destruct (getProp_total item key Hu Hn) as [v ->]. cbn [bind].
    match goal with
    | |- context [if ?c then _ else _] => destruct c
    end; cbn [bind]; apply IH.
Qed.

(** Without selectors a call always returns. *)
Lemma matchSorter_total (items : list jsValue) (value : jsValue) :
  exists out, matchSorter items value defaultOptions = Ok out.
Proof.
  unfold matchSorter. rewrite matchedItems_ranked. cbn [keys defaultOptions].
  assert (H : forall i, exists recs, rankedFrom None value items i = Ok recs).
  { induction items as [|x items IH]; intros i; [now exists []|].
    destruct (IH (i + 1)) as [recs Hr].
    cbn [rankedFrom getHighestRanking bind]. rewrite Hr. cbn [bind]. eauto. }
  destruct (H 0) as [recs ->]. cbn [bind]. eauto.
Qed.

(** ** The empty query *)

Lemma rankedFrom_empty_query (items : list jsValue) (i : Z) :
  exists recs,
    rankedFrom None (VStr "") items i = Ok recs /\
    map item recs = items /\
    Forall (fun r => keyIndex r = -1 /\
                     rank r = if emptyText (item r) then matchRankMap.equals
                              else matchRankMap.startsWith) recs.
Proof.
  revert i; induction items as [|x items IH]; intros i.
  - exists []. repeat split. constructor.
  - destruct (IH (i + 1)) as (recs & Hr & Hm & Hf).
    cbn [rankedFrom getHighestRanking bind]. rewrite Hr. cbn [bind].
    rewrite getMatchRanking_empty_query.
    exists (mkRanked x (if emptyText x then matchRankMap.equals
                        else matchRankMap.startsWith) i (-1) :: recs).
    split; [now destruct (emptyText x)|].
    split; [simpl; now rewrite Hm|].
    constructor; [now split | exact Hf].
Qed.

Lemma map_item_filter_rank (p : ranked -> bool) (q : jsValue -> bool)
      (l : list ranked) :
  Forall (fun r => p r = q (item r)) l ->
  map item (filter p l) = filter q (map item l).
Proof.
  induction l as [|r l IH]; intros Hf; simpl; [reflexivity|].
  inversion Hf as [|? ? Hr Hf']; subst. rewrite <- Hr.
  destruct (p r); simpl; now rewrite IH.
Qed.

Lemma matchSorter_empty_query (items : list jsValue) :
  matchSorter items (VStr "") defaultOptions =
  Ok (filter emptyText items ++ filter (fun v => negb (emptyText v)) items)%list.
Proof.
  unfold matchSorter. rewrite matchedItems_ranked. cbn [keys defaultOptions].
  destruct (rankedFrom_empty_query items 0) as (recs & Hr & Hm & Hf).
  rewrite Hr. cbn [bind]. f_equal.
  destruct (rankedFrom_records _ _ _ _ _ Hr) as [_ Hidx].
  set (p := fun r => rank r =? matchRankMap.equals).
  assert (Hp : forall r, In r recs ->
                         keyIndex r = -1 /\
                         (p r = true /\ rank r = matchRankMap.equals \/
                          p r = false /\ rank r = matchRankMap.startsWith) /\
                         p r = emptyText (item r)).
  { rewrite Forall_forall in Hf. intros r Hin.
    destruct (Hf r Hin) as [Hk Hrk]. unfold p. rewrite Hrk.
    destruct (emptyText (item r)); repeat split; auto. }
  assert (Hsort : (filter p recs ++ filter (fun r => negb (p r)) recs)%list =
                  sort sortRankedItems recs).
  { apply sort_unique.
    - now apply index_sorted_NoDup.
    - apply filter_partition_perm.
    - apply StronglySorted_app.
      + apply StronglySorted_weaken with (R := fun a b => index a < index b);
          [now apply StronglySorted_filter|].
        intros a b Ha Hb Hlt.
        apply filter_In in Ha as [Ha Hpa]. apply filter_In in Hb as [Hb Hpb].
        destruct (Hp a Ha) as (Hka & [[_ Hra]|[Hna _]] & _); [|congruence].
        destruct (Hp b Hb) as (Hkb & [[_ Hrb]|[Hnb _]] & _); [|congruence].
        unfold before. lia.
      + apply StronglySorted_weaken with (R := fun a b => index a < index b);
          [now apply StronglySorted_filter|].
        intros a b Ha Hb Hlt.
        apply filter_In in Ha as [Ha Hpa]. apply filter_In in Hb as [Hb Hpb].
        apply negb_true_iff in Hpa, Hpb.
        destruct (Hp a Ha) as (Hka & [[Hna _]|[_ Hra]] & _); [congruence|].
        destruct (Hp b Hb) as (Hkb & [[Hnb _]|[_ Hrb]] & _); [congruence|].
        unfold before. lia.
      + intros a b Ha Hb.
        apply filter_In in Ha as [Ha Hpa]. apply filter_In in Hb as [Hb Hpb].
        apply negb_true_iff in Hpb.
        destruct (Hp a Ha) as (Hka & [[_ Hra]|[Hna _]] & _); [|congruence].
        destruct (Hp b Hb) as (Hkb & [[Hnb _]|[_ Hrb]] & _); [congruence|].
        unfold before. left. rewrite Hra, Hrb.
        unfold matchRankMap.equals, matchRankMap.startsWith. lia. }
  rewrite <- Hsort, map_app, <- Hm.
  f_equal; apply map_item_filter_rank; apply Forall_forall; intros r Hin;
    destruct (Hp r Hin) as (_ & _ & He); [exact He | now rewrite He].
Qed.

Lemma getHighestRanking_empty_query (item : jsValue) (key : string)
      (ks : list string) (r k : Z) :
  getHighestRanking item (Some (key :: ks)) (VStr "") = Ok (r, k) ->
  matchRankMap.startsWith <= r.
Proof.
  unfold getHighestRanking, reduce. cbn [reduceFrom].
  unfold highestRankingStep at 1.
  destruct (getProp item key) as [field|e]; cbn [bind]; [|discriminate].
  rewrite getMatchRanking_empty_query.
  destruct (emptyText field); cbn; intros H;
    apply highestRanking_invariant in H; try lia;
    unfold matchRankMap.equals, matchRankMap.startsWith, matchRankMap.noMatch
      in *; lia.
Qed.

(** ** The claims *)

Ltac absent_substring :=
  rewrite <- indexOf_found; vm_compute; intros H; apply H; reflexivity.

Ltac reaches_step7 :=
  repeat split;
  [ vm_compute; lia | discriminate | absent_substring | absent_substring
  | discriminate ].

Lemma highestRanking_all_absent (item value : jsValue) (ks : list string)
      (i r0 k0 : Z) :
  Forall (absentField item) ks ->
  getMatchRanking (VStr "undefined") value <= r0 ->
  reduceFrom (highestRankingStep item value) ks i (r0, k0) = Ok (r0, k0).
Proof.
  intros Hf Hr. revert i. induction Hf as [|key ks Hk _ IH]; intros i;
    cbn [reduceFrom]; [reflexivity|].
  unfold highestRankingStep at 1. rewrite (getProp_absent item key Hk).
  cbn [bind].
  change (getMatchRanking VUndefined value)
    with (getMatchRanking (VStr "undefined") value).
  destruct (Z.gtb_spec (getMatchRanking (VStr "undefined") value) r0);
    [lia|]. cbn [bind]. apply IH.
Qed.

(** C1, as the code has it.  A selector that names no field of a record
    (neither an own property nor an inherited member) raises no error, for
    a query that has a string rendering, and reads [undefined], which is
    classified as the text "undefined" (not as the empty text): at any
    position [i] and with any best ranking so far the selector contributes
    the rank of "undefined" against the query.  That rank is [noMatch] for
    every query whose lowered text is longer than nine characters and
    [equals] for the query "undefined".  Over a list of selectors that all
    name no field the ranking is that rank at selector 0, or [noMatch] at
    [-1]. *)
Theorem C1_absent_field_reads_undefined
        (item : jsValue) (key : string) (value : jsValue)
        (rank keyIndex i : Z) :
  absentField item key ->
  renderable value ->
  getProp item key = Ok VUndefined /\
  getMatchRanking VUndefined value = getMatchRanking (VStr "undefined") value /\
  highestRankingStep item value (rank, keyIndex) key i =
    Ok (if getMatchRanking (VStr "undefined") value >? rank
        then (getMatchRanking (VStr "undefined") value, i)
        else (rank, keyIndex)) /\
  ((9 < String.length (lowered value))%nat ->
   getMatchRanking VUndefined value = matchRankMap.noMatch) /\
  getMatchRanking VUndefined (VStr "undefined") = matchRankMap.equals /\
  (forall ks,
      Forall (absentField item) ks ->
      getHighestRanking item (Some (key :: ks)) value =
      Ok (if getMatchRanking (VStr "undefined") value >? matchRankMap.noMatch
          then (getMatchRanking (VStr "undefined") value, 0)
          else (matchRankMap.noMatch, -1))).
Proof.
  intros Ha _. pose proof (getProp_absent item key Ha) as Hg.
  assert (Hstep : forall r k j,
             highestRankingStep item value (r, k) key j =
             Ok (if getMatchRanking (VStr "undefined") value >? r
                 then (getMatchRanking (VStr "undefined") value, j)
                 else (r, k))).
  { intros r k j. unfold highestRankingStep. rewrite Hg. cbn [bind].
    change (getMatchRanking VUndefined value)
      with (getMatchRanking (VStr "undefined") value).
    now destruct (getMatchRanking (VStr "undefined") value >? r). }
  split; [exact Hg|]. split; [reflexivity|]. split; [apply Hstep|].
  split; [|split; [reflexivity|]].
  - intros Hlen. unfold getMatchRanking.
    change (lowered VUndefined) with "undefined".
    assert (H : (String.length "undefined" <? String.length (lowered value))%nat
                = true) by (apply Nat.ltb_lt; exact Hlen).
    now rewrite H.
  - intros ks Hks. unfold getHighestRanking, reduce. cbn [reduceFrom].
    rewrite Hstep. cbn [bind].
    pose proof (getMatchRanking_range (VStr "undefined") value) as Hr.
    destruct (Z.gtb_spec (getMatchRanking (VStr "undefined") value)
                         matchRankMap.noMatch);
      apply highestRanking_all_absent; auto; lia.
Qed.

Lemma C1_absent_field_witness :
  getProp (VObj [("name", VStr "baz")]) "reverse" = Ok VUndefined /\
  highestRankingStep (VObj [("name", VStr "baz")]) (VStr "ba")
                     (matchRankMap.startsWith, 0) "reverse" 1 =
    Ok (matchRankMap.startsWith, 0).
Proof.
  destruct (C1_absent_field_reads_undefined
              (VObj [("name", VStr "baz")]) "reverse" (VStr "ba")
              matchRankMap.startsWith 0 1 (conj eq_refl eq_refl) I)
    as (H1 & _ & H3 & _).
  split; [exact H1 | exact H3].
Defined.

(** C1 fails as stated: a record without the field [name], ranked on the
    selector [name] for the query "undefined", gets [equals] at selector 0
    and is returned, whereas the empty text ranks [noMatch] for that
    query. *)
Lemma C1_counterexample :
  absentField (VObj []) "name" /\
  getHighestRanking (VObj []) (Some ["name"]) (VStr "undefined") =
    Ok (matchRankMap.equals, 0) /\
  getMatchRanking (VStr "") (VStr "undefined") = matchRankMap.noMatch /\
  matchSorter [VObj []] (VStr "undefined") (mkOptions (Some ["name"])) =
    Ok [VObj []].
Proof. repeat split. Qed.

(** C2, as the code has it.  Without a selector list the item itself is
    classified and the selector index is [-1]; with the empty selector list
    nothing is classified, the ranking is [noMatch] with index [-1], and
    [matchSorter] returns no item. *)
Theorem C2_absent_and_empty_keys (item value : jsValue) (items : list jsValue) :
  getHighestRanking item None value = Ok (getMatchRanking item value, -1) /\
  getHighestRanking item (Some []) value = Ok (matchRankMap.noMatch, -1) /\
  matchSorter items value defaultOptions =
    matchSorter items value (mkOptions None) /\
  matchSorter items value (mkOptions (Some [])) = Ok [].
Proof.
  repeat split.
  unfold matchSorter. rewrite matchedItems_ranked. cbn [keys].
  assert (H : forall i, rankedFrom (Some []) value items i = Ok []).
  { induction items as [|x items IH]; intros i; [reflexivity|].
    cbn [rankedFrom]. rewrite IH. reflexivity. }
  now rewrite H.
Qed.

(** C2 fails as stated: with the empty selector list the item "a" ranks
    [noMatch] for the query "a", not [equals] as its own text does, and is
    not returned. *)
Lemma C2_counterexample :
  getHighestRanking (VStr "a") (Some []) (VStr "a") =
    Ok (matchRankMap.noMatch, -1) /\
  getMatchRanking (VStr "a") (VStr "a") = matchRankMap.equals /\
  matchSorter [VStr "a"] (VStr "a") (mkOptions (Some [])) = Ok [] /\
  matchSorter [VStr "a"] (VStr "a") defaultOptions = Ok [VStr "a"].
Proof. repeat split. Qed.

(** C3.  The records of a call are output in the order tier descending, then
    selector index ascending, then input index ascending: the sorted list is
    a rearrangement of the records that is in that order, and the only one;
    every record carries an item of the input at its position, with its
    ranking, and every item ranked above [noMatch] has its record.  The
    comparator answers [-1] or [1], never [0].  So two output records of
    equal tier and equal selector index stand in input order; for the input
    Foo1, Bar, Foo2 and the query "foo" the output is Foo1, Foo2. *)
Theorem C3_output_order
        (items : list jsValue) (value : jsValue) (options : Options)
        (recs : list ranked) :
  matchedItems items value options = Ok recs ->
  let sorted := sort sortRankedItems recs in
  matchSorter items value options = Ok (map item sorted) /\
  Permutation sorted recs /\
  StronglySorted before sorted /\
  (forall l, Permutation l recs -> StronglySorted before l -> l = sorted) /\
  (forall r, In r recs -> recordOf (keys options) value items 0 r) /\
  (forall n x r k,
      nth_error items n = Some x ->
      getHighestRanking x (keys options) value = Ok (r, k) ->
      r > matchRankMap.noMatch ->
      In (mkRanked x r (Z.of_nat n) k) recs) /\
  (forall a b, sortRankedItems a b = -1 \/ sortRankedItems a b = 1) /\
  (forall l1 a l2 b l3,
      sorted = (l1 ++ a :: l2 ++ b :: l3)%list ->
      rank a = rank b -> keyIndex a = keyIndex b -> index a < index b) /\
  matchSorter [VStr "Foo1"; VStr "Bar"; VStr "Foo2"] (VStr "foo")
              defaultOptions = Ok [VStr "Foo1"; VStr "Foo2"].
Proof.
  intros Hm sorted.
  destruct (matchedItems_records _ _ _ _ Hm) as [Hrec Hnd].
  assert (Hs : StronglySorted before sorted) by now apply sort_sorted.
  repeat split.
  - unfold matchSorter. now rewrite Hm.
  - apply sort_perm.
  - exact Hs.
  - intros l Hp Hl. now apply sort_unique.
  - rewrite Forall_forall in Hrec. now apply Hrec.
  - rewrite Forall_forall in Hrec. now apply Hrec.
  - rewrite Forall_forall in Hrec. now apply Hrec.
  - rewrite Forall_forall in Hrec. now apply Hrec.
  - intros n x r k Hn Hg Hr. rewrite matchedItems_ranked in Hm.
    apply (rankedFrom_complete _ _ _ 0 recs n x r k Hm Hn Hg Hr).
  - apply sortRankedItems_values.
  - intros l1 a l2 b l3 Heq Hr Hk. rewrite Heq in Hs.
    apply sorted_split in Hs. unfold before in Hs. lia.
Qed.

Lemma C3_output_order_witness :
  matchSorter [VStr "Foo1"; VStr "Bar"; VStr "Foo2"] (VStr "foo")
              defaultOptions =
  Ok (map item (sort sortRankedItems
                     [mkRanked (VStr "Foo1") 4 0 (-1);
                      mkRanked (VStr "Foo2") 4 2 (-1)])).
Proof.
  exact (proj1 (C3_output_order
                  [VStr "Foo1"; VStr "Bar"; VStr "Foo2"] (VStr "foo")
                  defaultOptions
                  [mkRanked (VStr "Foo1") 4 0 (-1);
                   mkRanked (VStr "Foo2") 4 2 (-1)] eq_refl)).
Defined.



(** C5.  For the empty query every candidate with a non-empty text ranks
    [contains] or better, with selectors as without; without selectors the
    output holds every item of the input: those with no text first (they
    rank [equals]), then all the others (they rank [startsWith]), each group
    in input order. *)
Theorem C5_empty_query :
  (forall v, toString v <> "" ->
             matchRankMap.contains <= getMatchRanking v (VStr "")) /\
  (forall items,
      matchSorter items (VStr "") defaultOptions =
      Ok (filter emptyText items ++
          filter (fun v => negb (emptyText v)) items)%list) /\
  (forall item key ks r k,
      getHighestRanking item (Some (key :: ks)) (VStr "") = Ok (r, k) ->
      matchRankMap.contains <= r).
Proof.
  repeat split.
  - intros v _. rewrite getMatchRanking_empty_query.
    destruct (emptyText v);
      unfold matchRankMap.contains, matchRankMap.equals,
        matchRankMap.startsWith; lia.
  - apply matchSorter_empty_query.
  - intros item key ks r k H. apply getHighestRanking_empty_query in H.
    unfold matchRankMap.contains, matchRankMap.startsWith in *. lia.
Qed.

(** C6.  The acronym of a candidate is the concatenation, in order, of the
    first characters of its non-empty sub-words (split on spaces, then on
    hyphens); and when steps 1 to 6 fail the tier is [acronym] exactly when
    the acronym of the lowered candidate contains the lowered query. *)
Theorem C6_acronym (s : string) (v q : jsValue) :
  reachesStep7 (lowered v) (lowered q) ->
  getAcronym s = acronymSpec s /\
  (getMatchRanking v q = matchRankMap.acronym <->
   isSubstring (lowered q) (acronymSpec (lowered v))).
Proof.
  intros H. split; [apply getAcronym_spec|].
  rewrite (reachesStep7_sound v q H), <- getAcronym_spec.
  destruct (negb (indexOf (getAcronym (lowered v)) (lowered q) =? -1)) eqn:Ha.
  - split; [intros _ | reflexivity]. now apply indexOf_eqb_found.
  - split.
    + destruct (stringsByCharOrder_values (lowered v) (lowered q)) as [-> | ->];
        discriminate.
    + intros Hs. apply indexOf_eqb_found in Hs. congruence.
Qed.

Lemma C6_acronym_witness :
  getAcronym "a-b  c" = acronymSpec "a-b  c" /\
  (getMatchRanking (VStr "The Tail of Two Cities") (VStr "TTotc") =
   matchRankMap.acronym <->
   isSubstring (lowered (VStr "TTotc"))
               (acronymSpec (lowered (VStr "The Tail of Two Cities")))).
Proof.
  apply (C6_acronym "a-b  c" (VStr "The Tail of Two Cities") (VStr "TTotc")).
  reaches_step7.
Defined.

(** C7.  When steps 1 to 7 fail the tier is the answer of the cursor scan
    [stringsByCharOrder]: [matches] exactly when the characters of the
    lowered query occur in the lowered candidate in the order of the query,
    each at a later position than the one before, and [noMatch] otherwise. *)
Theorem C7_in_order_subsequence (v q : jsValue) :
  reachesStep8 (lowered v) (lowered q) ->
  getMatchRanking v q = stringsByCharOrder (lowered v) (lowered q) /\
  (getMatchRanking v q = matchRankMap.matches <->
   subseq (lowered q) (lowered v)) /\
  (getMatchRanking v q = matchRankMap.matches <->
   exists ps, occursAt (lowered q) (lowered v) ps) /\
  (~ subseq (lowered q) (lowered v) ->
   getMatchRanking v q = matchRankMap.noMatch).
Proof.
  intros [H7 Ha].
  assert (Hr : getMatchRanking v q =
               stringsByCharOrder (lowered v) (lowered q)).
  { rewrite (reachesStep7_sound v q H7).
    destruct (negb (indexOf (getAcronym (lowered v)) (lowered q) =? -1))
             eqn:Hi; [|reflexivity].
    apply indexOf_eqb_found in Hi. contradiction. }
  rewrite Hr. split; [reflexivity|]. split; [|split].
  - apply stringsByCharOrder_subseq.
  - rewrite <- subseq_occursAt. apply stringsByCharOrder_subseq.
  - intros Hn.
    destruct (stringsByCharOrder_values (lowered v) (lowered q)) as [H|H];
      [|exact H].
    apply stringsByCharOrder_subseq in H. contradiction.
Qed.

Lemma C7_in_order_subsequence_witness :
  getMatchRanking (VStr "The Tail of Forty Cities") (VStr "ttotc") =
    matchRankMap.matches <->
  subseq (lowered (VStr "ttotc")) (lowered (VStr "The Tail of Forty Cities")).
Proof.
  refine (proj1 (proj2 (C7_in_order_subsequence
                          (VStr "The Tail of Forty Cities") (VStr "ttotc") _))).
  split; [reaches_step7 | absent_substring].
Defined.

(** C8.  A query of one character that does not occur in the lowered
    candidate ranks [noMatch]; a query of one character never ranks
    [acronym] or [matches]; the query "d" on the collection of "abc" returns
    nothing. *)
Theorem C8_single_character (v q : jsValue) (c : ascii) :
  lowered q = String c EmptyString ->
  (~ In c (list_ascii_of_string (lowered v)) ->
   getMatchRanking v q = matchRankMap.noMatch) /\
  getMatchRanking v q <> matchRankMap.acronym /\
  getMatchRanking v q <> matchRankMap.matches /\
  matchSorter [VStr "abc"] (VStr "d") defaultOptions = Ok [].
Proof.
  intros Hq. repeat split.
  - intros Hc.
    destruct (Nat.ltb_spec (String.length (lowered v))
                           (String.length (lowered q))) as [Hlt|Hlen].
    { unfold getMatchRanking. apply Nat.ltb_lt in Hlt. now rewrite Hlt. }
    rewrite (getMatchRanking_early v q Hlen).
    + now rewrite Hq.
    + intros Hs. apply Hc. apply (isSubstring_chars c _ _ Hs).
      rewrite Hq. now left.
  - unfold getMatchRanking. rewrite Hq. cbn [String.length Nat.eqb].
    repeat match goal with
           | |- context [if ?b then _ else _] => destruct b
           end; discriminate.
  - unfold getMatchRanking. rewrite Hq. cbn [String.length Nat.eqb].
    repeat match goal with
           | |- context [if ?b then _ else _] => destruct b
           end; discriminate.
Qed.

Lemma C8_single_character_witness :
  getMatchRanking (VStr "abc") (VStr "D") = matchRankMap.noMatch.
Proof.
  refine (proj1 (C8_single_character (VStr "abc") (VStr "D") "d" eq_refl) _).
  simpl. intuition discriminate.
Defined.

(** C9.  Applying [matchSorter] with the same query and options to its own
    output returns that output. *)
Theorem C9_idempotent
        (items : list jsValue) (value : jsValue) (options : Options)
        (out : list jsValue) :
  matchSorter items value options = Ok out ->
  matchSorter out value options = Ok out.
Proof.
  unfold matchSorter at 1.
  destruct (matchedItems items value options) as [recs|e] eqn:Hm;
    cbn [bind]; [|discriminate].
  intros [= <-].
  destruct (matchedItems_records _ _ _ _ Hm) as [Hrec Hnd].
  set (sorted := sort sortRankedItems recs).
  assert (Hs : StronglySorted before sorted) by now apply sort_sorted.
  assert (Hf : Forall (fun r => getHighestRanking (item r) (keys options) value
                                = Ok (rank r, keyIndex r) /\
                                rank r > matchRankMap.noMatch) sorted).
  { eapply Permutation_Forall; [symmetry; apply sort_perm|].
    eapply Forall_impl; [|exact Hrec]. intros r (_ & _ & Hg & Hr). now split. }
  unfold matchSorter. rewrite matchedItems_ranked.
  rewrite (rankedFrom_renumber _ _ sorted 0 Hf). cbn [bind].
  rewrite sort_sorted_id by now apply renumber_sorted.
  now rewrite map_item_renumber.
Qed.

Lemma C9_idempotent_witness :
  matchSorter
    [VObj [("name", VStr "abc"); ("reverse", VStr "cba")];
     VObj [("name", VStr "bat"); ("reverse", VStr "tab")];
     VObj [("name", VStr "bag"); ("reverse", VStr "gab")]]
    (VStr "ab") (mkOptions (Some ["name"; "reverse"])) =
  Ok [VObj [("name", VStr "abc"); ("reverse", VStr "cba")];
      VObj [("name", VStr "bat"); ("reverse", VStr "tab")];
      VObj [("name", VStr "bag"); ("reverse", VStr "gab")]].
Proof.
  apply (C9_idempotent
           [VObj [("name", VStr "foo"); ("reverse", VStr "oof")];
            VObj [("name", VStr "bat"); ("reverse", VStr "tab")];
            VObj [("name", VStr "abc"); ("reverse", VStr "cba")];
            VObj [("name", VStr "bag"); ("reverse", VStr "gab")]]).
  vm_compute. reflexivity.
Defined.

(** C10.  The candidate and the query are both rendered as strings and
    lowered before they are compared, so the rank of two values that have a
    string rendering is the rank of their renderings: [undefined] ranks
    [equals] for the query "undefined" and is returned, [null] likewise for
    "null", and a number among the exact integers ranks [startsWith] for
    every proper prefix of its decimal rendering and is returned. *)
Theorem C10_string_coercion :
  (forall v q,
      renderable v -> renderable q ->
      getMatchRanking v q =
      getMatchRanking (VStr (toString v)) (VStr (toString q))) /\
  getMatchRanking VUndefined (VStr "undefined") = matchRankMap.equals /\
  matchSorter [VUndefined] (VStr "undefined") defaultOptions =
    Ok [VUndefined] /\
  getMatchRanking VNull (VStr "null") = matchRankMap.equals /\
  matchSorter [VNull] (VStr "null") defaultOptions = Ok [VNull] /\
  (forall n p,
      Z.abs n < 2 ^ 53 ->
      prefix p (toString (VNum n)) = true ->
      p <> toString (VNum n) ->
      getMatchRanking (VNum n) (VStr p) = matchRankMap.startsWith /\
      matchSorter [VNum n] (VStr p) defaultOptions = Ok [VNum n]).
Proof.
  split; [intros v q _ _; reflexivity|].
  do 4 (split; [reflexivity|]).
  intros n p _ Hp Hne.
  assert (Hr : getMatchRanking (VNum n) (VStr p) = matchRankMap.startsWith).
  { pose proof (toLowerCase_number n) as Hn.
    pose proof (prefix_toLowerCase _ _ Hp Hn) as Hlp.
    apply getMatchRanking_proper_prefix; unfold lowered; cbn [toString] in *;
      rewrite Hn, Hlp; assumption. }
  split; [exact Hr|].
  unfold matchSorter, matchedItems, reduce. cbn [reduceFrom keys defaultOptions].
  unfold reduceItemsToRanked. cbn [getHighestRanking bind]. now rewrite Hr.
Qed.

Lemma C10_string_coercion_witness :
  getMatchRanking (VNum 1234) (VStr "12") = matchRankMap.startsWith /\
  matchSorter [VNum 1234] (VStr "12") defaultOptions = Ok [VNum 1234].
Proof.
  refine (proj2 (proj2 (proj2 (proj2 (proj2 C10_string_coercion))))
                1234 "12" _ eq_refl _).
  - reflexivity.
  - discriminate.
Defined.

(** ** Further properties: the tiers *)

Lemma prefix_refl (s : string) : prefix s s = true.
Proof. apply prefix_append. exists "". now rewrite append_nil_r. Qed.

Lemma prefix_isSubstring (q s : string) : prefix q s = true -> isSubstring q s.
Proof. intros H. apply prefix_append in H as [b ->]. now exists "", b. Qed.

Lemma isSubstring_length (q s : string) :
  isSubstring q s -> (String.length q <= String.length s)%nat.
Proof. intros [a [b ->]]. rewrite !length_append. lia. Qed.

Lemma isSubstring_after_space (q s : string) :
  isSubstring (" " ++ q) s -> isSubstring q s.
Proof.
  intros [a [b ->]]. exists (a ++ " "), b. now rewrite !append_assoc.
Qed.

Lemma subseq_length (q s : string) :
  subseq q s -> (String.length q <= String.length s)%nat.
Proof. induction 1; simpl; lia. Qed.

Lemma subseq_refl (s : string) : subseq s s.
Proof. induction s; constructor; assumption. Qed.

Lemma subseq_app (a a' b b' : string) :
  subseq a a' -> subseq b b' -> subseq (a ++ b) (a' ++ b').
Proof.
  intros Ha Hb. induction Ha as [s|q c s _ IH|q c s _ IH]; simpl.
  - induction s as [|c s IH]; simpl; [exact Hb | now apply subseq_skip].
  - now apply subseq_skip.
  - now apply subseq_take.
Qed.

Lemma isSubstring_subseq (q s : string) : isSubstring q s -> subseq q s.
Proof.
  intros [a [b ->]].
  change q with ("" ++ q) at 1. apply subseq_app; [constructor|].
  rewrite <- (append_nil_r q) at 1. apply subseq_app;
    [apply subseq_refl | constructor].
Qed.

Lemma subseq_trans (a b c : string) : subseq a b -> subseq b c -> subseq a c.
Proof.
  intros Hab Hbc. revert a Hab.
  induction Hbc as [s|q x s _ IH|q x s _ IH]; intros a Hab.
  - inversion Hab; subst. constructor.
  - apply subseq_skip. now apply IH.
  - inversion Hab; subst.
    + constructor.
    + apply subseq_skip. now apply IH.
    + apply subseq_take. now apply IH.
Qed.

Lemma subseq_single (c : ascii) (s : string) :
  subseq (String c "") s -> isSubstring (String c "") s.
Proof.
  induction s as [|d s IH]; intros H; inversion H; subst.
  - destruct (IH H2) as [a [b ->]]. now exists (String d a), b.
  - now exists "", s.
Qed.

Lemma subseq_concat_join (sep : ascii) (xs ys : list string) :
  Forall2 subseq xs ys -> subseq (concatAll xs) (join sep ys).
Proof.
  induction 1 as [|x y xs ys Hxy Hf IH]; [constructor|].
  cbn [concatAll fold_right join]. fold (concatAll xs).
  destruct ys as [|y' ys].
  - inversion Hf; subst. simpl. now rewrite append_nil_r.
  - apply subseq_app; [exact Hxy|]. now apply subseq_skip.
Qed.

Lemma firstChar_subseq (l : list string) :
  Forall2 subseq (map firstChar l) l.
Proof.
  induction l as [|w l IH]; simpl; constructor; [|exact IH].
  destruct w; simpl; [constructor | apply subseq_take; constructor].
Qed.

Lemma getAcronym_subseq (s : string) : subseq (getAcronym s) s.
Proof.
  unfold getAcronym. rewrite getAcronym_fold. cbn [append].
  rewrite <- (join_split " " s) at 2.
  apply subseq_concat_join.
  induction (split " " s) as [|w ws IH]; simpl; constructor; [|exact IH].
  rewrite <- (join_split "-" w) at 2.
  apply subseq_concat_join, firstChar_subseq.
Qed.

(** The steps of [getMatchRanking], by what holds of the two lowered
    strings. *)
Lemma getMatchRanking_cases (v q : jsValue) :
  let t := lowered v in
  let s := lowered q in
  let r := getMatchRanking v q in
  (t = s /\ r = matchRankMap.equals) \/
  (t <> s /\ prefix s t = true /\ r = matchRankMap.startsWith) \/
  (prefix s t = false /\ isSubstring (" " ++ s) t /\
   r = matchRankMap.wordStartsWith) \/
  (prefix s t = false /\ ~ isSubstring (" " ++ s) t /\ isSubstring s t /\
   r = matchRankMap.contains) \/
  (~ isSubstring s t /\ r <= matchRankMap.acronym).
Proof.
  intros t s r.
  destruct (Nat.ltb_spec (String.length t) (String.length s)) as [Hlt|Hle].
  { do 4 right. split.
    - intros Hs. apply isSubstring_length in Hs. lia.
    - subst r. unfold getMatchRanking. fold t s.
      apply Nat.ltb_lt in Hlt. rewrite Hlt.
      unfold matchRankMap.noMatch, matchRankMap.acronym. lia. }
  destruct (String.eqb_spec t s) as [Heq|Hne].
  { left. split; [exact Heq|]. subst r. unfold getMatchRanking. fold t s.
    apply Nat.ltb_ge in Hle. rewrite Hle.
    apply String.eqb_eq in Heq. now rewrite Heq. }
  destruct (prefix s t) eqn:Hp.
  { right; left. repeat split; auto.
    subst r. apply getMatchRanking_proper_prefix; fold t s; congruence. }
  assert (Hle' : (String.length t <? String.length s)%nat = false)
    by now apply Nat.ltb_ge.
  assert (Hne' : String.eqb t s = false) by now apply String.eqb_neq.
  assert (H0 : (indexOf t s =? 0) = false).
  { apply Z.eqb_neq. intros H. apply indexOf_zero in H. congruence. }
  destruct (negb (indexOf t (" " ++ s) =? -1)) eqn:Hw.
  { right; right; left. repeat split; [now apply indexOf_eqb_found|].
    subst r. unfold getMatchRanking. fold t s.
    now rewrite Hle', Hne', H0, Hw. }
  assert (Hnw : ~ isSubstring (" " ++ s) t).
  { intros H. apply indexOf_eqb_found in H. congruence. }
  destruct (negb (indexOf t s =? -1)) eqn:Hc.
  { do 3 right; left. repeat split; auto; [now apply indexOf_eqb_found|].
    subst r. unfold getMatchRanking. fold t s.
    now rewrite Hle', Hne', H0, Hw, Hc. }
  assert (Hnc : ~ isSubstring s t).
  { intros H. apply indexOf_eqb_found in H. congruence. }
  do 4 right. split; [exact Hnc|].
  subst r. rewrite (getMatchRanking_early v q Hle Hnc). fold t s.
  destruct (String.length s =? 1)%nat;
    [unfold matchRankMap.noMatch, matchRankMap.acronym; lia|].
  destruct (negb (indexOf (getAcronym t) s =? -1)); [lia|].
  destruct (stringsByCharOrder_values t s) as [-> | ->];
    unfold matchRankMap.noMatch, matchRankMap.matches, matchRankMap.acronym;
    lia.
Qed.

(** X1.  The four upper tiers by what they mean: [equals] exactly when the
    lowered texts are the same, [startsWith] exactly when the candidate
    begins with the query and is longer, [wordStartsWith] exactly when it
    does not begin with the query but holds it right after a space,
    [contains] exactly when it holds the query, never at the start and never
    after a space; so the rank is [contains] or better exactly when the
    query occurs in the candidate. *)
Theorem X1_upper_tiers (v q : jsValue) :
  (getMatchRanking v q = matchRankMap.equals <-> lowered v = lowered q) /\
  (getMatchRanking v q = matchRankMap.startsWith <->
   lowered v <> lowered q /\ prefix (lowered q) (lowered v) = true) /\
  (getMatchRanking v q = matchRankMap.wordStartsWith <->
   prefix (lowered q) (lowered v) = false /\
   isSubstring (" " ++ lowered q) (lowered v)) /\
  (getMatchRanking v q = matchRankMap.contains <->
   prefix (lowered q) (lowered v) = false /\
   ~ isSubstring (" " ++ lowered q) (lowered v) /\
   isSubstring (lowered q) (lowered v)) /\
  (matchRankMap.contains <= getMatchRanking v q <->
   isSubstring (lowered q) (lowered v)).
Proof.
  pose proof (getMatchRanking_cases v q) as H. cbv zeta in H.
  pose proof (prefix_refl (lowered q)) as Hrefl.
  pose proof (prefix_isSubstring (lowered q) (lowered v)) as Hps.
  pose proof (isSubstring_after_space (lowered q) (lowered v)) as Hsp.
  unfold matchRankMap.equals, matchRankMap.startsWith,
    matchRankMap.wordStartsWith, matchRankMap.contains, matchRankMap.acronym
    in *.
  destruct H as [[He Hr]|[(Hne & Hp & Hr)|[(Hp & Hw & Hr)|[(Hp & Hw & Hc & Hr)
                |[Hc Hr]]]]]; rewrite ?Hr;
    repeat split; intros;
    first [ lia | congruence | tauto
          | apply Hps; rewrite He; exact Hrefl
          | exfalso;
            match goal with
            | E : lowered v = lowered q |- _ =>
                rewrite E in *; intuition congruence
            end
          | exfalso; intuition congruence ].
Qed.

Lemma getMatchRanking_above_noMatch (v q : jsValue) :
  getMatchRanking v q > matchRankMap.noMatch <->
  subseq (lowered q) (lowered v).
Proof.
  destruct (Nat.ltb_spec (String.length (lowered v))
                         (String.length (lowered q))) as [Hlt|Hle].
  { split.
    - unfold getMatchRanking. apply Nat.ltb_lt in Hlt. rewrite Hlt. lia.
    - intros Hs. apply subseq_length in Hs. lia. }
  destruct (negb (indexOf (lowered v) (lowered q) =? -1)) eqn:Hc.
  { apply indexOf_eqb_found in Hc. split.
    - intros _. now apply isSubstring_subseq.
    - intros _. pose proof (getMatchRanking_cases v q) as H. cbv zeta in H.
      pose proof (prefix_isSubstring (lowered q) (lowered v)) as Hps.
      unfold matchRankMap.equals, matchRankMap.startsWith,
        matchRankMap.wordStartsWith, matchRankMap.contains,
        matchRankMap.noMatch in *.
      destruct H as [[_ Hr]|[(_ & _ & Hr)|[(_ & _ & Hr)|[(_ & _ & _ & Hr)
                    |[Hn _]]]]]; [lia | lia | lia | lia | contradiction]. }
  assert (Hn : ~ isSubstring (lowered q) (lowered v)).
  { intros H. apply indexOf_eqb_found in H. congruence. }
  rewrite (getMatchRanking_early v q Hle Hn).
  destruct (Nat.eqb_spec (String.length (lowered q)) 1) as [H1|H1].
  { split; [unfold matchRankMap.noMatch; lia|]. intros Hs. exfalso.
    destruct (lowered q) as [|c [|d s]]; try discriminate.
    apply Hn. now apply subseq_single. }
  destruct (negb (indexOf (getAcronym (lowered v)) (lowered q) =? -1)) eqn:Ha.
  { split; [intros _ | unfold matchRankMap.acronym, matchRankMap.noMatch; lia].
    apply indexOf_eqb_found in Ha.
    apply subseq_trans with (getAcronym (lowered v));
      [now apply isSubstring_subseq | apply getAcronym_subseq]. }
  rewrite <- stringsByCharOrder_subseq.
  destruct (stringsByCharOrder_values (lowered v) (lowered q)) as [-> | ->];
    unfold matchRankMap.matches, matchRankMap.noMatch; split; intros; lia.
Qed.


(** X2.  A candidate ranks above [noMatch] exactly when the characters of
    the lowered query occur in the lowered candidate in order, at increasing
    positions: every tier is a refinement of the in-order test, also
    [acronym]; and a candidate that ranks above [noMatch] is, lowered, at
    least as long as the lowered query. *)
Theorem X2_match_iff_subsequence (v q : jsValue) :
  (getMatchRanking v q > matchRankMap.noMatch <->
   subseq (lowered q) (lowered v)) /\
  (getMatchRanking v q > matchRankMap.noMatch <->
   exists ps, occursAt (lowered q) (lowered v) ps) /\
  (getMatchRanking v q > matchRankMap.noMatch ->
   (String.length (lowered q) <= String.length (lowered v))%nat).
Proof.
  pose proof (getMatchRanking_above_noMatch v q) as H.
  split; [exact H|]. split.
  - now rewrite <- subseq_occursAt.
  - intros Hr. now apply H, subseq_length in Hr.
Qed.

(** ** Further properties: the call *)

Lemma rankedFrom_survivors (keys : option (list string)) (value : jsValue)
      (items : list jsValue) (i : Z) (recs : list ranked) :
  rankedFrom keys value items i = Ok recs ->
  map item recs = filter (survives keys value) items.
Proof.
  revert i recs; induction items as [|x items IH]; intros i recs;
    cbn [rankedFrom filter].
  - now intros [= <-].
  - unfold survives at 1.
    destruct (getHighestRanking x keys value) as [[r k]|e]; cbn [bind];
      [|discriminate].
    destruct (rankedFrom keys value items (i + 1)) as [rest|e] eqn:Hr;
      cbn [bind]; [|discriminate].
    intros [= <-]. rewrite <- (IH (i + 1) rest Hr).
    now destruct (r >? matchRankMap.noMatch).
Qed.

Lemma matchSorter_survivors
      (items : list jsValue) (value : jsValue) (options : Options)
      (out : list jsValue) :
  matchSorter items value options = Ok out ->
  Permutation out (filter (survives (keys options) value) items).
Proof.
  unfold matchSorter. rewrite matchedItems_ranked.
  destruct (rankedFrom (keys options) value items 0) as [recs|e] eqn:Hr;
    cbn [bind]; [|discriminate].
  intros [= <-]. rewrite <- (rankedFrom_survivors _ _ _ _ _ Hr).
  apply Permutation_map, sort_perm.
Qed.

(** X3.  The output of a call that returns is a rearrangement of the input
    items that pass the test of [reduceItemsToRanked], each as often as it
    is in the input: nothing is added, changed or dropped besides, and the
    output is no longer than the input. *)
Theorem X3_output_is_the_survivors
        (items : list jsValue) (value : jsValue) (options : Options)
        (out : list jsValue) :
  matchSorter items value options = Ok out ->
  Permutation out (filter (survives (keys options) value) items) /\
  (forall x, In x out -> In x items) /\
  (List.length out <= List.length items)%nat.
Proof.
  intros H. apply matchSorter_survivors in H.
  split; [exact H|]. split.
  - intros x Hx. apply (Permutation_in _ H) in Hx.
    now apply filter_In in Hx.
  - rewrite (Permutation_length H). apply filter_length_le.
Qed.

Lemma X3_output_is_the_survivors_witness :
  Permutation [VStr "Foo1"; VStr "Foo2"]
              (filter (survives (keys defaultOptions) (VStr "foo"))
                      [VStr "Foo1"; VStr "Bar"; VStr "Foo2"]) /\
  (forall x, In x [VStr "Foo1"; VStr "Foo2"] ->
             In x [VStr "Foo1"; VStr "Bar"; VStr "Foo2"]) /\
  (List.length [VStr "Foo1"; VStr "Foo2"] <=
   List.length [VStr "Foo1"; VStr "Bar"; VStr "Foo2"])%nat.
Proof.
  apply (X3_output_is_the_survivors
           [VStr "Foo1"; VStr "Bar"; VStr "Foo2"] (VStr "foo") defaultOptions).
  reflexivity.
Defined.

(** X4.  Without selectors, for items and a query that have a string
    rendering, the call returns, and an item is in the output exactly when
    it is in the input and the characters of the lowered query occur in its
    lowered text in order. *)
Theorem X4_output_without_keys (items : list jsValue) (value : jsValue) :
  Forall renderable items -> renderable value ->
  exists out,
    matchSorter items value defaultOptions = Ok out /\
    forall x, In x out <->
              In x items /\ subseq (lowered value) (lowered x).
Proof.
  intros _ _.
  destruct (matchSorter_total items value) as [out Hout].
  exists out. split; [exact Hout|]. intros x.
  pose proof (matchSorter_survivors _ _ _ _ Hout) as Hp.
  split.
  - intros Hin. apply (Permutation_in _ Hp) in Hin.
    apply filter_In in Hin as [Hin Hs]. split; [exact Hin|].
    unfold survives in Hs. cbn in Hs. apply Z.gtb_gt in Hs.
    now apply getMatchRanking_above_noMatch.
  - intros [Hin Hs]. apply (Permutation_in _ (Permutation_sym Hp)).
    apply filter_In. split; [exact Hin|].
    unfold survives. cbn. apply Z.gtb_gt.
    now apply getMatchRanking_above_noMatch.
Qed.

Lemma X4_output_without_keys_witness :
  exists out,
    matchSorter [VStr "Foo1"; VNum 12; VObj [("name", VStr "Foo2")]]
                (VStr "o") defaultOptions = Ok out /\
    forall x, In x out <->
              In x [VStr "Foo1"; VNum 12; VObj [("name", VStr "Foo2")]] /\
              subseq (lowered (VStr "o")) (lowered x).
Proof.
  apply X4_output_without_keys.
  - repeat constructor.
  - exact I.
Defined.

Lemma getHighestRanking_nullish (item : jsValue) (key : string)
      (ks : list string) (value : jsValue) :
  isNullish item = true ->
  getHighestRanking item (Some (key :: ks)) value = Throw TypeError.
Proof. destruct item; try discriminate; reflexivity. Qed.

Lemma getHighestRanking_not_nullish (item : jsValue)
      (keys : option (list string)) (value : jsValue) :
  isNullish item = false ->
  exists r k, getHighestRanking item keys value = Ok (r, k).
Proof.
  intros H. apply getHighestRanking_total; intros ->; discriminate.
Qed.

Lemma rankedFrom_throws (key : string) (ks : list string) (value : jsValue)
      (items : list jsValue) (i : Z) :
  (existsb isNullish items = true ->
   rankedFrom (Some (key :: ks)) value items i = Throw TypeError) /\
  (existsb isNullish items = false ->
   exists recs, rankedFrom (Some (key :: ks)) value items i = Ok recs).
Proof.
  revert i; induction items as [|x items IH]; intros i;
    cbn [existsb rankedFrom].
  - split; [discriminate | now exists []].
  - destruct (isNullish x) eqn:Hx; cbn [orb].
    + split; [intros _ | discriminate].
      now rewrite getHighestRanking_nullish.
    + destruct (getHighestRanking_not_nullish x (Some (key :: ks)) value Hx)
        as (r & k & ->).
      cbn [bind]. destruct (IH (i + 1)) as [Ht Ho]. split.
      * intros H. now rewrite (Ht H).
      * intros H. destruct (Ho H) as [recs ->]. cbn [bind]. eauto.
Qed.

(** X5.  With at least one selector, a query that has a string rendering
    and fields read that all have one, the call raises a [TypeError] exactly
    when an item of the input is [undefined] or [null], whatever the other
    items and the query are; otherwise it returns. *)
Theorem X5_type_error_on_nullish_items
        (key : string) (ks : list string) (items : list jsValue)
        (value : jsValue) :
  renderable value ->
  Forall (fun x => forall k v, In k (key :: ks) -> getProp x k = Ok v ->
                               renderable v) items ->
  (matchSorter items value (mkOptions (Some (key :: ks))) = Throw TypeError <->
   Exists (fun x => x = VUndefined \/ x = VNull) items) /\
  ((exists out,
       matchSorter items value (mkOptions (Some (key :: ks))) = Ok out) <->
   Forall (fun x => x <> VUndefined /\ x <> VNull) items).
Proof.
  intros _ _.
  assert (He : existsb isNullish items = true <->
               Exists (fun x => x = VUndefined \/ x = VNull) items).
  { rewrite existsb_exists, Exists_exists.
    split; intros [x [Hin Hx]]; exists x; (split; [exact Hin|]).
    - destruct x; try discriminate; auto.
    - destruct Hx as [-> | ->]; reflexivity. }
  assert (Hf : existsb isNullish items = false <->
               Forall (fun x => x <> VUndefined /\ x <> VNull) items).
  { rewrite Forall_forall. split.
    - intros H x Hin. split; intros ->;
        (assert (existsb isNullish items = true)
          by (apply existsb_exists; eexists; split; [exact Hin | reflexivity]));
        congruence.
    - intros H. destruct (existsb isNullish items) eqn:E; [|reflexivity].
      apply existsb_exists in E as [x [Hin Hx]].
      destruct (H x Hin) as [H1 H2]. destruct x; try discriminate; congruence. }
  unfold matchSorter. rewrite matchedItems_ranked. cbn [keys].
  destruct (rankedFrom_throws key ks value items 0) as [Ht Ho].
  rewrite <- He, <- Hf.
  destruct (existsb isNullish items).
  - rewrite (Ht eq_refl). cbn [bind]. split; split; auto; try discriminate.
    intros [out H]. discriminate.
  - destruct (Ho eq_refl) as [recs ->]. cbn [bind].
    split; split; auto; try discriminate. eauto.
Qed.

Lemma X5_type_error_on_nullish_items_witness :
  (matchSorter [VObj [("name", VStr "a")]; VNull] (VStr "a")
               (mkOptions (Some ["name"])) = Throw TypeError <->
   Exists (fun x => x = VUndefined \/ x = VNull)
          [VObj [("name", VStr "a")]; VNull]) /\
  ((exists out,
       matchSorter [VObj [("name", VStr "a")]; VNull] (VStr "a")
                   (mkOptions (Some ["name"])) = Ok out) <->
   Forall (fun x => x <> VUndefined /\ x <> VNull)
          [VObj [("name", VStr "a")]; VNull]).
Proof.
  apply X5_type_error_on_nullish_items; [exact I|].
  constructor; [|constructor; [|constructor]].
  - intros k v [<-|[]]. cbn. intros [= <-]. exact I.
  - intros k v _. discriminate.
Defined.

(** ** Further properties: the field selector *)

Lemma highestRanking_best (item value : jsValue) (ks : list string)
      (i r0 k0 r k : Z) :
  k0 < i ->
  reduceFrom (highestRankingStep item value) ks i (r0, k0) = Ok (r, k) ->
  r0 <= r /\
  (forall j key,
      nth_error ks j = Some key ->
      exists v, getProp item key = Ok v /\
                getMatchRanking v value <= r /\
                (i + Z.of_nat j < k -> getMatchRanking v value < r)) /\
  ((r = r0 /\ k = k0) \/
   (r0 < r /\ i <= k /\
    exists key v,
      nth_error ks (Z.to_nat (k - i)) = Some key /\
      getProp item key = Ok v /\ getMatchRanking v value = r)).
Proof.
  revert i r0 k0; induction ks as [|key ks IH]; intros i r0 k0 Hk;
    cbn [reduceFrom].
  - intros [= <- <-]. split; [lia|]. split; [|now left].
    intros [|j] key' Hn; discriminate.
  - unfold highestRankingStep at 1.
    destruct (getProp item key) as [v|e] eqn:Hv; cbn [bind]; [|discriminate].
    destruct (Z.gtb_spec (getMatchRanking v value) r0) as [Hgt|Hle];
      cbn [bind]; intros H; apply IH in H; try lia;
      destruct H as (Hr & Hall & Hbest).
    + split; [lia|]. split.
      * intros [|j] key' Hn; simpl in Hn.
        -- injection Hn as <-. exists v. split; [exact Hv|]. split; [lia|].
           intros Hlt. destruct Hbest as [[-> ->]|[Hlt' _]]; lia.
        -- destruct (Hall j key' Hn) as (v' & Hv' & Hle' & Hlt').
           exists v'. repeat split; auto. intros; apply Hlt'; lia.
      * right. destruct Hbest as [[-> ->]|(Hlt & Hik & key' & v' & Hn & Hv' & Hr')].
        -- split; [lia|]. split; [lia|]. exists key, v.
           replace (i - i) with 0 by lia. auto.
        -- split; [lia|]. split; [lia|]. exists key', v'.
           replace (Z.to_nat (k - i)) with (S (Z.to_nat (k - (i + 1)))) by lia.
           auto.
    + split; [lia|]. split.
      * intros [|j] key' Hn; simpl in Hn.
        -- injection Hn as <-. exists v. split; [exact Hv|]. split; [lia|].
           intros Hlt. destruct Hbest as [[-> ->]|[Hlt' _]]; lia.
        -- destruct (Hall j key' Hn) as (v' & Hv' & Hle' & Hlt').
           exists v'. repeat split; auto. intros; apply Hlt'; lia.
      * destruct Hbest as [[-> ->]|(Hlt & Hik & key' & v' & Hn & Hv' & Hr')];
          [now left|].
        right. split; [lia|]. split; [lia|]. exists key', v'.
        replace (Z.to_nat (k - i)) with (S (Z.to_nat (k - (i + 1)))) by lia.
        auto.
Qed.

(** X6.  The ranking of an item over a list of selectors: its rank is the
    best rank of the fields the selectors read, and its selector index is the
    first position that reaches that rank (a later field of equal rank does
    not replace it); when no field ranks above [noMatch] it is [noMatch] with
    index [-1]. *)
Theorem X6_best_field_first_wins
        (item value : jsValue) (ks : list string) (r k : Z) :
  getHighestRanking item (Some ks) value = Ok (r, k) ->
  (forall j key,
      nth_error ks j = Some key ->
      exists v, getProp item key = Ok v /\
                getMatchRanking v value <= r /\
                (Z.of_nat j < k -> getMatchRanking v value < r)) /\
  ((r = matchRankMap.noMatch /\ k = -1) \/
   (r > matchRankMap.noMatch /\ 0 <= k /\
    exists key v,
      nth_error ks (Z.to_nat k) = Some key /\
      getProp item key = Ok v /\ getMatchRanking v value = r)).
Proof.
  unfold getHighestRanking, reduce. intros H.
  apply highestRanking_best in H; [|lia].
  destruct H as (Hr & Hall & Hbest). split.
  - intros j key Hn. destruct (Hall j key Hn) as (v & Hv & Hle & Hlt).
    exists v. repeat split; auto.
  - destruct Hbest as [[-> ->]|(Hlt & Hk & key & v & Hn & Hv & Hrv)];
      [now left|].
    right. split; [lia|]. split; [exact Hk|]. exists key, v.
    now rewrite Z.sub_0_r in Hn.
Qed.

Lemma X6_best_field_first_wins_witness :
  (forall j key,
      nth_error ["name"; "reverse"; "alias"] j = Some key ->
      exists v,
        getProp (VObj [("name", VStr "bat"); ("reverse", VStr "tab");
                       ("alias", VStr "cab")]) key = Ok v /\
        getMatchRanking v (VStr "ab") <= 2 /\
        (Z.of_nat j < 1 -> getMatchRanking v (VStr "ab") < 2)) /\
  ((2 = matchRankMap.noMatch /\ 1 = -1) \/
   (2 > matchRankMap.noMatch /\ 0 <= 1 /\
    exists key v,
      nth_error ["name"; "reverse"; "alias"] (Z.to_nat 1) = Some key /\
      getProp (VObj [("name", VStr "bat"); ("reverse", VStr "tab");
                     ("alias", VStr "cab")]) key = Ok v /\
      getMatchRanking v (VStr "ab") = 2)).
Proof.
  apply (X6_best_field_first_wins
           (VObj [("name", VStr "bat"); ("reverse", VStr "tab");
                  ("alias", VStr "cab")])
           (VStr "ab") ["name"; "reverse"; "alias"] 2 1).
  reflexivity.
Defined.

Lemma reduceFrom_app {A B : Type} (f : B -> A -> Z -> result B)
      (l1 l2 : list A) (i : Z) (acc : B) :
  reduceFrom f (l1 ++ l2) i acc =
  (acc' <- reduceFrom f l1 i acc ;;
   reduceFrom f l2 (i + Z.of_nat (List.length l1)) acc').
Proof.
  revert i acc; induction l1 as [|x l1 IH]; intros i acc; cbn [reduceFrom app].
  - cbn [bind List.length]. now rewrite Z.add_0_r.
  - destruct (f acc x i) as [acc'|e]; cbn [bind]; [|reflexivity].
    rewrite IH. cbn [List.length].
    now replace (i + 1 + Z.of_nat (List.length l1))
      with (i + Z.of_nat (S (List.length l1))) by lia.
Qed.

(** X7.  Appending selectors never lowers the rank of an item, and where
    the rank stays the same the selector index stays the same too: a
    selector added at the end wins only by ranking strictly higher. *)
Theorem X7_more_keys_never_lower
        (item value : jsValue) (ks ks' : list string) (r k r' k' : Z) :
  getHighestRanking item (Some ks) value = Ok (r, k) ->
  getHighestRanking item (Some (ks ++ ks')%list) value = Ok (r', k') ->
  r <= r' /\ (r' = r -> k' = k) /\
  (r < r' -> Z.of_nat (List.length ks) <= k').
Proof.
  unfold getHighestRanking, reduce. intros H1 H2.
  rewrite reduceFrom_app, H1 in H2. cbn [bind] in H2.
  assert (Hk : k < 0 + Z.of_nat (List.length ks)).
  { apply highestRanking_invariant in H1; [|lia|left; split; reflexivity].
    destruct H1 as [_ H1]. lia. }
  apply highestRanking_best in H2; [|exact Hk].
  destruct H2 as (Hr & _ & [[-> ->]|(Hlt & Hik & _)]); repeat split; lia.
Qed.

Lemma X7_more_keys_never_lower_witness :
  4 <= 5 /\ (5 = 4 -> 2 = 0) /\
  (4 < 5 -> Z.of_nat (List.length ["name"; "reverse"]) <= 2).
Proof.
  apply (X7_more_keys_never_lower
           (VObj [("name", VStr "abc"); ("reverse", VStr "cba");
                  ("code", VStr "AB")])
           (VStr "ab") ["name"; "reverse"] ["code"] 4 0 5 2);
    reflexivity.
Defined.

(** ** Further properties: the scan, the acronym, the comparator *)

Lemma get_none (m : nat) (s : string) :
  get m s = None <-> (String.length s <= m)%nat.
Proof.
  revert m; induction s as [|c s IH]; intros m; simpl.
  - split; [lia | reflexivity].
  - destruct m as [|m]; [split; [discriminate | lia]|].
    rewrite IH. lia.
Qed.

Lemma findLoop_first (fuel j : nat) (c : ascii) (s : string) :
  (String.length s - j <= fuel)%nat ->
  match findLoop fuel j c s with
  | Some n =>
      (j < n <= String.length s)%nat /\ get (pred n) s = Some c /\
      forall m, (j <= m < pred n)%nat -> get m s <> Some c
  | None => forall m, (j <= m)%nat -> get m s <> Some c
  end.
Proof.
  revert j; induction fuel as [|fuel IH]; intros j Hf; cbn [findLoop].
  - intros m Hm. assert (H : get m s = None) by (apply get_none; lia).
    congruence.
  - destruct (get j s) as [d|] eqn:Hj.
    + assert (Hlt : (j < String.length s)%nat).
      { destruct (Nat.lt_ge_cases j (String.length s)) as [H|H]; [exact H|].
        apply get_none in H. congruence. }
      destruct (Ascii.eqb_spec d c) as [->|Hd].
      * split; [lia|]. split; [exact Hj|]. intros m Hm. simpl in Hm. lia.
      * specialize (IH (S j)). destruct (findLoop fuel (S j) c s) as [n|].
        -- destruct IH as (Hn & Hg & Hm); [lia|].
           split; [lia|]. split; [exact Hg|]. intros m Hjm.
           destruct (Nat.eq_dec m j) as [->|Hne]; [congruence|].
           apply Hm. lia.
        -- intros m Hjm. destruct (Nat.eq_dec m j) as [->|Hne]; [congruence|].
           apply IH; lia.
    + intros m Hm. apply get_none in Hj.
      assert (H : get m s = None) by (apply get_none; lia). congruence.
Qed.

(** X8.  [findMatchingCharacter] finds the first occurrence of the character
    at or after the cursor: when it answers true the new cursor is just past
    that occurrence, within the string, and the character is nowhere between
    the old cursor and it; when it answers false the cursor is unchanged and
    the character is nowhere from the cursor on. *)
Theorem X8_scan_finds_first_occurrence
        (matchChar : ascii) (str : string) (charNumber : nat) :
  match findMatchingCharacter matchChar str charNumber with
  | (true, next) =>
      (charNumber < next <= String.length str)%nat /\
      get (pred next) str = Some matchChar /\
      forall m, (charNumber <= m < pred next)%nat -> get m str <> Some matchChar
  | (false, next) =>
      next = charNumber /\
      forall m, (charNumber <= m)%nat -> get m str <> Some matchChar
  end.
Proof.
  unfold findMatchingCharacter.
  pose proof (findLoop_first (String.length str - charNumber) charNumber
                             matchChar str (Nat.le_refl _)) as H.
  destruct (findLoop (String.length str - charNumber) charNumber matchChar str).
  - exact H.
  - split; [reflexivity | exact H].
Qed.

Lemma chars_concatAll (c : ascii) (l : list string) :
  In c (list_ascii_of_string (concatAll l)) ->
  exists w, In w l /\ In c (list_ascii_of_string w).
Proof.
  induction l as [|w l IH]; simpl; [tauto|].
  rewrite chars_append, in_app_iff. intros [H|H].
  - exists w. auto.
  - destruct (IH H) as [w' [Hw Hc]]. exists w'. auto.
Qed.

Lemma chars_join (sep c : ascii) (w : string) (l : list string) :
  In w l -> In c (list_ascii_of_string w) ->
  In c (list_ascii_of_string (join sep l)).
Proof.
  induction l as [|x l IH]; [intros []|].
  intros Hin Hc. cbn [join]. destruct l as [|y l].
  - destruct Hin as [->|[]]. exact Hc.
  - rewrite chars_append, in_app_iff. destruct Hin as [->|Hin]; [now left|].
    right. right. now apply IH.
Qed.

(** X9.  The acronym is made of characters of the string in their order, it
    holds neither a space nor a hyphen, and it is no longer than the
    string. *)
Theorem X9_acronym_shape (s : string) :
  subseq (getAcronym s) s /\
  ~ In " "%char (list_ascii_of_string (getAcronym s)) /\
  ~ In "-"%char (list_ascii_of_string (getAcronym s)) /\
  (String.length (getAcronym s) <= String.length s)%nat.
Proof.
  pose proof (getAcronym_subseq s) as Hs.
  assert (Hc : forall c, In c (list_ascii_of_string (getAcronym s)) ->
                         exists word w,
                           In word (split " " s) /\ In w (split "-" word) /\
                           In c (list_ascii_of_string w)).
  { intros c Hc. rewrite getAcronym_spec in Hc. unfold acronymSpec in Hc.
    apply chars_concatAll in Hc as [f [Hf Hc]].
    apply in_map_iff in Hf as [w [<- Hw]].
    apply filter_In in Hw as [Hw _]. unfold subWords in Hw.
    apply in_flat_map in Hw as [word [Hword Hw]].
    exists word, w. repeat split; auto.
    destruct w as [|d w]; simpl in Hc; [tauto|].
    destruct Hc as [<-|[]]. now left. }
  split; [exact Hs|]. split; [|split].
  - intros H. destruct (Hc _ H) as (word & w & Hword & Hw & Hin).
    apply (split_no_sep " " s word Hword).
    rewrite <- (join_split "-" word). now apply chars_join with w.
  - intros H. destruct (Hc _ H) as (word & w & Hword & Hw & Hin).
    now apply (split_no_sep "-" word w Hw).
  - now apply subseq_length.
Qed.

(** X10.  The comparator is a strict order that decides every pair of
    records differing in tier, selector index or input index: swapping the
    arguments swaps the answer, and the answers chain; only a record compared
    with one of the same three numbers (itself) gets the answer [1] both
    ways. *)
Theorem X10_comparator_is_strict_order :
  (forall a b,
      sortRankedItems a b = sortRankedItems b a <->
      rank a = rank b /\ keyIndex a = keyIndex b /\ index a = index b) /\
  (forall a b,
      sortRankedItems a b <> sortRankedItems b a ->
      sortRankedItems a b = - sortRankedItems b a) /\
  (forall a b c,
      sortRankedItems a b = -1 -> sortRankedItems b c = -1 ->
      sortRankedItems a c = -1) /\
  (forall a, sortRankedItems a a = 1).
Proof.
  assert (Hself : forall a b,
             rank a = rank b -> keyIndex a = keyIndex b ->
             index a = index b -> sortRankedItems a b = 1).
  { intros a b Hr Hk Hi. unfold sortRankedItems.
    rewrite Hr, Hk, Hi, !Z.eqb_refl, Z.ltb_irrefl. reflexivity. }
  assert (Hrev : forall a b,
             ~ (rank a = rank b /\ keyIndex a = keyIndex b /\ index a = index b) ->
             sortRankedItems a b = - sortRankedItems b a).
  { intros a b Hd.
    destruct (sortRankedItems_values a b) as [Hab|Hab];
      destruct (sortRankedItems_values b a) as [Hba|Hba];
      rewrite Hab, Hba; try reflexivity; exfalso.
    - apply sortRankedItems_before in Hab, Hba. now apply (before_asym a b).
    - assert (Ha : ~ before a b)
        by (intros H; apply sortRankedItems_before in H; lia).
      assert (Hb : ~ before b a)
        by (intros H; apply sortRankedItems_before in H; lia).
      unfold before in Ha, Hb. lia. }
  split; [|split; [|split]].
  - intros a b. split.
    + intros He.
      destruct (Z.eq_dec (rank a) (rank b)) as [Hr|Hr];
        [destruct (Z.eq_dec (keyIndex a) (keyIndex b)) as [Hk|Hk];
         [destruct (Z.eq_dec (index a) (index b)) as [Hi|Hi]|]|];
        try (exfalso;
             assert (H : sortRankedItems a b = - sortRankedItems b a)
               by (apply Hrev; lia);
             destruct (sortRankedItems_values b a); lia).
      tauto.
    + intros (Hr & Hk & Hi). rewrite (Hself a b), (Hself b a); auto.
  - intros a b Hne. apply Hrev. intros (Hr & Hk & Hi). apply Hne.
    rewrite (Hself a b), (Hself b a); auto.
  - intros a b c Hab Hbc. apply sortRankedItems_before in Hab, Hbc.
    apply sortRankedItems_before. now apply before_trans with b.
  - intros a. now apply Hself.
Qed.

(** ** Further properties: case, length and a single selector *)

Lemma lowerChar_idem (c : ascii) : lowerChar (lowerChar c) = lowerChar c.
Proof. destruct c as [[] [] [] [] [] [] [] []]; reflexivity. Qed.

Lemma toLowerCase_idem (s : string) :
  toLowerCase (toLowerCase s) = toLowerCase s.
Proof.
  induction s as [|c s IH]; simpl; [reflexivity|].
  now rewrite lowerChar_idem, IH.
Qed.

Lemma reduceFrom_ext {A B : Type} (f g : B -> A -> Z -> result B)
      (l : list A) (i : Z) (acc : B) :
  (forall b x j, f b x j = g b x j) ->
  reduceFrom f l i acc = reduceFrom g l i acc.
Proof.
  intros H. revert i acc; induction l as [|x l IH]; intros i acc;
    cbn [reduceFrom]; [reflexivity|].
  rewrite H. destruct (g acc x i); cbn [bind]; [apply IH | reflexivity].
Qed.

Lemma matchSorter_same_ranks (items : list jsValue) (value value' : jsValue)
      (options : Options) :
  (forall v, getMatchRanking v value = getMatchRanking v value') ->
  matchSorter items value options = matchSorter items value' options.
Proof.
  intros H.
  assert (Hg : forall x, getHighestRanking x (keys options) value =
                         getHighestRanking x (keys options) value').
  { intros x. unfold getHighestRanking. destruct (keys options) as [ks|];
      [|now rewrite H].
    apply reduceFrom_ext. intros [r k] key j. unfold highestRankingStep.
    destruct (getProp x key); cbn [bind]; [|reflexivity]. now rewrite H. }
  unfold matchSorter, matchedItems, reduce.
  rewrite (reduceFrom_ext (reduceItemsToRanked (keys options) value)
                          (reduceItemsToRanked (keys options) value'));
    [reflexivity|].
  intros b x j. unfold reduceItemsToRanked. now rewrite Hg.
Qed.

(** X11.  Letter case does not count: lowering the query or a candidate
    beforehand changes no rank, and a call with the lowered query gives the
    same result as the call with the query itself. *)
Theorem X11_case_does_not_count
        (items : list jsValue) (v value : jsValue) (options : Options) :
  getMatchRanking v (VStr (lowered value)) = getMatchRanking v value /\
  getMatchRanking (VStr (lowered v)) value = getMatchRanking v value /\
  matchSorter items (VStr (lowered value)) options =
    matchSorter items value options.
Proof.
  assert (Hl : forall y, lowered (VStr (lowered y)) = lowered y).
  { intros y. unfold lowered at 1. cbn [toString]. apply toLowerCase_idem. }
  assert (H : forall x y, getMatchRanking x (VStr (lowered y)) =
                          getMatchRanking x y).
  { intros x y. unfold getMatchRanking. now rewrite Hl. }
  split; [apply H|]. split.
  - unfold getMatchRanking. now rewrite Hl.
  - apply matchSorter_same_ranks. intros x. apply H.
Qed.

(** X12.  Without selectors, for items and a query that have a string
    rendering, a query whose lowered text is longer than the lowered text
    of every item returns nothing: the check of the lengths comes before
    every other test. *)
Theorem X12_query_too_long (items : list jsValue) (value : jsValue) :
  renderable value ->
  Forall (fun x => renderable x /\
                   (String.length (lowered x) <
                    String.length (lowered value))%nat) items ->
  matchSorter items value defaultOptions = Ok [].
Proof.
  intros _ Hf.
  assert (He : filter (survives (keys defaultOptions) value) items = []).
  { induction Hf as [|x items [_ Hx] _ IH]; [reflexivity|].
    cbn [filter]. rewrite IH.
    unfold survives. cbn [keys defaultOptions getHighestRanking].
    unfold getMatchRanking.
    apply Nat.ltb_lt in Hx. now rewrite Hx. }
  destruct (matchSorter_total items value) as [out Hout].
  rewrite Hout. f_equal.
  apply matchSorter_survivors in Hout.
  rewrite He in Hout. now apply Permutation_nil, Permutation_sym.
Qed.

Lemma X12_query_too_long_witness :
  matchSorter [VStr "Chakotay"; VStr "Charzard"] (VStr "JonathanJonathan")
              defaultOptions = Ok [].
Proof.
  apply X12_query_too_long; [exact I|].
  repeat constructor.
Defined.

Lemma insert_map {A B : Type} (cmp : A -> A -> Z) (cmp' : B -> B -> Z)
      (f : A -> B) (P : A -> Prop) (x : A) (l : list A) :
  (forall a b, P a -> P b -> cmp' (f a) (f b) = cmp a b) ->
  P x -> Forall P l ->
  insert cmp' (f x) (map f l) = map f (insert cmp x l).
Proof.
  intros H Hx Hl. induction Hl as [|y l Hy _ IH]; [reflexivity|].
  cbn [map insert]. rewrite (H x y Hx Hy).
  destruct (cmp x y <? 0); [reflexivity|].
  cbn [map]. now rewrite IH.
Qed.

Lemma sort_map {A B : Type} (cmp : A -> A -> Z) (cmp' : B -> B -> Z)
      (f : A -> B) (P : A -> Prop) (l : list A) :
  (forall a b, P a -> P b -> cmp' (f a) (f b) = cmp a b) ->
  Forall P l ->
  sort cmp' (map f l) = map f (sort cmp l).
Proof.
  intros H Hl. induction Hl as [|x l Hx Hl IH]; [reflexivity|].
  cbn [map sort fold_right]. fold (sort cmp' (map f l)). fold (sort cmp l).
  rewrite IH. apply insert_map with P; auto.
  eapply Permutation_Forall; [symmetry; apply sort_perm | exact Hl].
Qed.

Lemma getHighestRanking_single_key (x : jsValue) (key : string)
      (value : jsValue) :
  isNullish x = false ->
  getHighestRanking x (Some [key]) value =
  Ok (if getMatchRanking (fieldOf key x) value >? matchRankMap.noMatch
      then (getMatchRanking (fieldOf key x) value, 0)
      else (matchRankMap.noMatch, -1)).
Proof.
  intros Hx. unfold getHighestRanking, reduce. cbn [reduceFrom].
  unfold highestRankingStep, fieldOf.
  destruct (getProp_total x key) as [v ->];
    try (intros ->; discriminate).
  cbn [bind]. now destruct (getMatchRanking v value >? matchRankMap.noMatch).
Qed.

Lemma rankedFrom_single_key (key : string) (value : jsValue)
      (items : list jsValue) (i : Z) :
  Forall (fun x => isNullish x = false) items ->
  exists recs,
    rankedFrom (Some [key]) value items i = Ok recs /\
    Forall (fun r => keyIndex r = 0) recs /\
    rankedFrom None value (map (fieldOf key) items) i =
    Ok (map (fun r => mkRanked (fieldOf key (item r)) (rank r) (index r) (-1))
            recs).
Proof.
  intros Hf. revert i. induction Hf as [|x items Hx _ IH]; intros i.
  - exists []. repeat split. constructor.
  - destruct (IH (i + 1)) as (recs & Hk & Hz & Hn).
    cbn [map rankedFrom]. rewrite Hk, Hn.
    rewrite (getHighestRanking_single_key x key value Hx).
    cbn [getHighestRanking bind].
    destruct (getMatchRanking (fieldOf key x) value >? matchRankMap.noMatch)
             eqn:Hgt; cbn [bind].
    + rewrite Hgt.
      eexists. split; [reflexivity|]. split; [now constructor | reflexivity].
    + assert (Hn' : (matchRankMap.noMatch >? matchRankMap.noMatch) = false)
        by reflexivity.
      rewrite Hn'.
      exists recs. repeat split; auto.
Qed.

(** X13.  Ranking on a single selector is ranking the fields it reads: for
    a query that has a string rendering and items that are neither
    [undefined] nor [null] and whose field read has a string rendering, the
    call with the one selector returns, and the fields of its output, in
    order, are the output of the call without selectors on the fields of
    the input. *)
Theorem X13_single_key_ranks_the_fields
        (key : string) (items : list jsValue) (value : jsValue) :
  renderable value ->
  Forall (fun x => isNullish x = false /\ renderable (fieldOf key x)) items ->
  exists out,
    matchSorter items value (mkOptions (Some [key])) = Ok out /\
    matchSorter (map (fieldOf key) items) value defaultOptions =
    Ok (map (fieldOf key) out).
Proof.
  intros _ Hf.
  assert (Hn' : Forall (fun x => isNullish x = false) items)
    by (eapply Forall_impl; [|exact Hf]; now intros x [Hx _]).
  destruct (rankedFrom_single_key key value items 0 Hn')
    as (recs & Hk & Hz & Hn).
  unfold matchSorter. rewrite !matchedItems_ranked.
  cbn [keys defaultOptions]. rewrite Hk, Hn. cbn [bind].
  eexists. split; [reflexivity|]. f_equal.
  rewrite (sort_map sortRankedItems sortRankedItems _
                    (fun r => keyIndex r = 0) recs); [|
    intros a b Ha Hb; unfold sortRankedItems; simpl; now rewrite Ha, Hb
    | exact Hz].
  now rewrite !map_map.
Qed.

Lemma X13_single_key_ranks_the_fields_witness :
  exists out,
    matchSorter [VObj [("name", VStr "baz")]; VObj [("name", VStr "foo")];
                 VObj [("name", VStr "bat")]; VObj []]
                (VStr "ba") (mkOptions (Some ["name"])) = Ok out /\
    matchSorter (map (fieldOf "name")
                     [VObj [("name", VStr "baz")]; VObj [("name", VStr "foo")];
                      VObj [("name", VStr "bat")]; VObj []])
                (VStr "ba") defaultOptions =
    Ok (map (fieldOf "name") out).
Proof.
  apply X13_single_key_ranks_the_fields; [exact I|].
  repeat constructor.
Defined.
